(** * WebIO API facade: reconciliation of device status snapshots

    A shallow embedding of [webio_api/__init__.py]: the [Output] and [Zone]
    entity classes with their commands, the status translators,
    [refresh_device_info], the accessors [get_serial_number] and
    [get_name], [update_device_status] and its two reconciliation passes
    [_update_outputs] and [_update_zones].

    Python objects are heap cells: an entity is addressed by a location, the
    facade's [outputs] and [zones] lists hold locations, and the lists that
    [update_device_status] returns hold the very same locations, so sharing
    between the retained collections, the returned deltas and any outside
    holder is visible in the model. *)

From stdpp Require Import base decidable option list gmap strings.
From Stdlib Require Import ZArith Lia Ascii.

Local Open Scope string_scope.
Local Open Scope Z_scope.
Local Open Scope list_scope.

(** ** Values read from JSON dictionaries

    The fields of a descriptor are typed [Any] in the source. The embedding
    keeps the cases the code tells apart: [None], booleans, integers and
    strings; [VOther] stands for a nested list or dictionary, named by its
    text. Floating point numbers are left out of the embedding. *)
Inductive value : Type :=
  | VNone
  | VBool (b : bool)
  | VInt (n : Z)
  | VStr (s : string)
  | VOther (repr : string).

#[global] Instance value_eq_dec : EqDecision value.
Proof. solve_decision. Defined.

(** A [dict[str, Any]]. *)
Abbreviation dict := (gmap string value).

(** [d.get(k)] and [d.get(k, dflt)]. *)
Definition get (d : dict) (k : string) : value := default VNone (d !! k).
Definition get_default (d : dict) (k : string) (dflt : value) : value :=
  default dflt (d !! k).

(** The integer a value denotes in a numeric comparison: [bool] is a subtype
    of [int] in Python and compares as 0 or 1; any other value makes
    [v < 0] raise [TypeError]. *)
Definition as_int (v : value) : option Z :=
  match v with
  | VInt n => Some n
  | VBool b => Some (Z.b2z b)
  | _ => None
  end.

(** ** The constants of [webio_api.const]

    The module [const] is imported by the source but is not part of it, so
    the key strings are a parameter of the development. *)
Record Const : Type := {
  KEY_DEVICE_NAME : string;
  KEY_DEVICE_SERIAL : string;
  KEY_INDEX : string;
  KEY_NAME : string;
  KEY_OUTPUTS : string;
  KEY_STATUS : string;
  KEY_WEBIO_NAME : string;
  KEY_WEBIO_SERIAL : string;
  KEY_ZONES : string;
  KEY_PASS_TYPE : string
}.

(** Modelled from the spec: the key strings of the missing [const] module,
    as the spec's description of the raw snapshot and of the device-info
    mapping spells them ([outputs], [zones], [index], [status], [name],
    [passType], [webio-serial], [webio-name]). The two keys of the private
    [_info] dictionary are not named by the spec; two distinct strings are
    chosen. Only the concrete examples use this instance. *)
Definition spec_const : Const := {|
  KEY_DEVICE_NAME := "name";
  KEY_DEVICE_SERIAL := "serial";
  KEY_INDEX := "index";
  KEY_NAME := "name";
  KEY_OUTPUTS := "outputs";
  KEY_STATUS := "status";
  KEY_WEBIO_NAME := "webio-name";
  KEY_WEBIO_SERIAL := "webio-serial";
  KEY_ZONES := "zones";
  KEY_PASS_TYPE := "passType"
|}.

(** ** Exceptions and outcomes *)
Inductive exn : Type := KeyError | TypeError | AttributeError.

Inductive outcome (A : Type) : Type :=
  | Ok (a : A)
  | Raise (e : exn).
Arguments Ok {A} a.
Arguments Raise {A} e.

Definition returns {A : Type} (r : outcome A) : bool :=
  match r with Ok _ => true | Raise _ => false end.

(** ** Status translators *)

(** [WebioAPI._convert_outputs_status] *)
Definition _convert_outputs_status (output_status : value) : option bool :=
  if decide (output_status = VNone) then None
  else if decide (output_status = VStr "true") then Some true
  else if decide (output_status = VStr "false") then Some false
  else None.

(** [WebioAPI._convert_zone_status] *)
Definition _convert_zone_status (zone_status : value) : option string :=
  if decide (zone_status = VNone) then None
  else if decide (zone_status = VStr "alarm") then Some "triggered"
  else if decide (zone_status = VStr "armed") then Some "armed_away"
  else if decide (zone_status = VStr "disarmed") then Some "disarmed"
  else None.

(** ** Entity classes *)

(** [state is not None] *)
Definition is_not_None {A : Type} (o : option A) : bool :=
  match o with Some _ => true | None => false end.

Module Output.
Record t : Type := mk {
  index : Z;
  state : option bool;
  available : bool;
  webio_serial : value
}.

(** [Output.__init__]; the transport client is an outside collaborator and
    is not stored. *)
Definition init (index : Z) (serial : value) (state : option bool) : t :=
  {| index := index; state := state;
     available := is_not_None state; webio_serial := serial |}.

Definition set_state (s : option bool) (o : t) : t :=
  {| index := index o; state := s;
     available := available o; webio_serial := webio_serial o |}.
Definition set_available (a : bool) (o : t) : t :=
  {| index := index o; state := state o;
     available := a; webio_serial := webio_serial o |}.

(** [available == (state is not None)] *)
Definition consistent (o : t) : Prop := available o = is_not_None (state o).
End Output.

Module Zone.
Record t : Type := mk {
  index : Z;
  name : value;
  state : option string;
  pass_type : value;
  available : bool;
  webio_serial : value
}.

(** [Zone.__init__] *)
Definition init (index : Z) (serial : value) (state : option string) : t :=
  {| index := index; name := VNone; state := state; pass_type := VInt 2;
     available := is_not_None state; webio_serial := serial |}.

Definition set_name (n : value) (z : t) : t :=
  {| index := index z; name := n; state := state z;
     pass_type := pass_type z; available := available z;
     webio_serial := webio_serial z |}.
Definition set_state (s : option string) (z : t) : t :=
  {| index := index z; name := name z; state := s;
     pass_type := pass_type z; available := available z;
     webio_serial := webio_serial z |}.
Definition set_available (a : bool) (z : t) : t :=
  {| index := index z; name := name z; state := state z;
     pass_type := pass_type z; available := a;
     webio_serial := webio_serial z |}.
Definition set_pass_type (p : value) (z : t) : t :=
  {| index := index z; name := name z; state := state z;
     pass_type := p; available := available z;
     webio_serial := webio_serial z |}.

Definition consistent (z : t) : Prop := available z = is_not_None (state z).
End Zone.

(** ** The facade and the object store

    [loc] addresses an entity object. The store of a class is a list that
    only grows: allocating appends a cell, and its position is the identity
    of the new object. *)
Abbreviation loc := nat.

(** A raw entity descriptor and a raw snapshot. The snapshot maps a category
    key to its descriptor list; a key bound to [None] answers [.get] the way
    a missing key does and is represented by a missing key. *)
Abbreviation descriptor := (gmap string value).
Abbreviation snapshot := (gmap string (list descriptor)).

Record WebioAPI : Type := mkWebioAPI {
  _info : gmap string value;
  outputs : list loc;
  zones : list loc;
  output_store : list Output.t;
  zone_store : list Zone.t
}.

(** [WebioAPI.__init__] *)
Definition init : WebioAPI :=
  {| _info := ∅; outputs := []; zones := [];
     output_store := []; zone_store := [] |}.

Definition with_info (i : gmap string value) (w : WebioAPI) : WebioAPI :=
  {| _info := i; outputs := outputs w; zones := zones w;
     output_store := output_store w; zone_store := zone_store w |}.
Definition with_outputs (ls : list loc) (h : list Output.t) (w : WebioAPI)
    : WebioAPI :=
  {| _info := _info w; outputs := ls; zones := zones w;
     output_store := h; zone_store := zone_store w |}.
Definition with_zones (ls : list loc) (h : list Zone.t) (w : WebioAPI)
    : WebioAPI :=
  {| _info := _info w; outputs := outputs w; zones := ls;
     output_store := output_store w; zone_store := h |}.

(** [str.replace("-", "")] *)
Fixpoint remove_hyphens (s : string) : string :=
  match s with
  | EmptyString => EmptyString
  | String c s' =>
      if Ascii.eqb c "-"%char then remove_hyphens s'
      else String c (remove_hyphens s')
  end.

(** The answer of the transport client's [get_info]. The source gives it no
    type: it is a dictionary, or some other JSON value ([None], a boolean,
    an integer, a string, or a list, the latter as [VOther]). *)
Inductive answer : Type :=
  | Mapping (d : dict)
  | NotMapping (v : value).

Section Facade.
Variable K : Const.

(** The [try] block of [refresh_device_info]. Subscripting an answer that
    is not a dictionary with a string key raises [TypeError], whatever the
    value is; subscripting a dictionary at a missing key raises
    [KeyError]; [.replace] on a value that is not a string raises
    [AttributeError]. Each assignment takes effect before the next
    statement runs. *)
Definition refresh_try (info : answer) (w : WebioAPI)
    : outcome unit * WebioAPI :=
  match info with
  | NotMapping _ => (Raise TypeError, w)
  | Mapping info =>
      match info !! KEY_WEBIO_SERIAL K with
      | None => (Raise KeyError, w)
      | Some serial =>
          match serial with
          | VStr s =>
              let w1 :=
                with_info
                  (<[KEY_DEVICE_SERIAL K := VStr (remove_hyphens s)]> (_info w))
                  w in
              match info !! KEY_WEBIO_NAME K with
              | None => (Raise KeyError, w1)
              | Some n =>
                  (Ok tt, with_info (<[KEY_DEVICE_NAME K := n]> (_info w1)) w1)
              end
          | _ => (Raise AttributeError, w)
          end
      end
  end.

(** [WebioAPI.refresh_device_info]; [info] is the awaited answer of the
    transport client's [get_info]. The handler catches [KeyError] and
    [AttributeError] only, so the [TypeError] of an answer that is not a
    dictionary reaches the caller. *)
Definition refresh_device_info (info : answer) (w : WebioAPI)
    : outcome bool * WebioAPI :=
  match refresh_try info w with
  | (Ok _, w') => (Ok true, w')
  | (Raise KeyError, w') => (Ok false, w')
  | (Raise AttributeError, w') => (Ok false, w')
  | (Raise e, w') => (Raise e, w')
  end.

(** [WebioAPI.get_serial_number]; [_info] is a dictionary from construction
    on, so the [is None] branch is never taken. *)
Definition get_serial_number (w : WebioAPI) : option value :=
  _info w !! KEY_DEVICE_SERIAL K.

(** [WebioAPI._get_output]: the first retained output with that index. *)
Definition output_has_index (h : list Output.t) (index : Z) (o : loc) : bool :=
  match h !! o with
  | Some out => bool_decide (Output.index out = index)
  | None => false
  end.
Definition _get_output (w : WebioAPI) (index : Z) : option loc :=
  List.find (output_has_index (output_store w) index) (outputs w).

(** [WebioAPI._get_zone] *)
Definition zone_has_index (h : list Zone.t) (index : Z) (z : loc) : bool :=
  match h !! z with
  | Some zone => bool_decide (Zone.index zone = index)
  | None => false
  end.
Definition _get_zone (w : WebioAPI) (index : Z) : option loc :=
  List.find (zone_has_index (zone_store w) index) (zones w).

(** The first loop of [_update_outputs]:
    [out.state = None; out.available = False] for every retained output. *)
Definition output_unavailable (o : Output.t) : Output.t :=
  Output.set_available false (Output.set_state None o).
Definition mark_outputs (w : WebioAPI) : WebioAPI :=
  with_outputs (outputs w)
    (foldl (λ h out, alter output_unavailable out h) (output_store w) (outputs w)) w.

(** The two assignments that end the body of the second loop. *)
Definition output_assign (o : descriptor) (out : Output.t) : Output.t :=
  let out := Output.set_state (_convert_outputs_status (get o (KEY_STATUS K))) out in
  Output.set_available (is_not_None (Output.state out)) out.

(** The second loop of [_update_outputs], threading the facade and the two
    local lists [current_indexes] and [new_outputs]. *)
Fixpoint outputs_loop (os : list descriptor) (w : WebioAPI)
    (current_indexes : list Z) (new_outputs : list loc)
    : outcome (list Z * list loc) * WebioAPI :=
  match os with
  | [] => (Ok (current_indexes, new_outputs), w)
  | o :: os' =>
      match as_int (get_default o (KEY_INDEX K) (VInt (-1))) with
      | None => (Raise TypeError, w)
      | Some index =>
          if (index <? 0)%Z then outputs_loop os' w current_indexes new_outputs
          else
            let current_indexes := current_indexes ++ [index] in
            match _get_output w index with
            | Some webio_output =>
                let w := with_outputs (outputs w)
                  (alter (output_assign o) webio_output (output_store w)) w in
                outputs_loop os' w current_indexes new_outputs
            | None =>
                match _info w !! KEY_DEVICE_SERIAL K with
                | None => (Raise KeyError, w)
                | Some serial =>
                    let webio_output := length (output_store w) in
                    let w := with_outputs (outputs w ++ [webio_output])
                      (output_store w ++ [Output.init index serial None]) w in
                    let new_outputs := new_outputs ++ [webio_output] in
                    let w := with_outputs (outputs w)
                      (alter (output_assign o) webio_output (output_store w)) w in
                    outputs_loop os' w current_indexes new_outputs
                end
            end
      end
  end.

(** [webio_output.index in current_indexes] *)
Definition output_index_in (h : list Output.t) (current_indexes : list Z)
    (o : loc) : bool :=
  match h !! o with
  | Some out => bool_decide (Output.index out ∈ current_indexes)
  | None => false
  end.

(** [WebioAPI._update_outputs] *)
Definition _update_outputs (os : list descriptor) (w : WebioAPI)
    : outcome (list loc) * WebioAPI :=
  let w := mark_outputs w in
  match outputs_loop os w [] [] with
  | (Raise e, w) => (Raise e, w)
  | (Ok (current_indexes, new_outputs), w) =>
      let w :=
        if (0 <? length current_indexes)%nat then
          with_outputs
            (filter (λ o, output_index_in (output_store w) current_indexes o)
               (outputs w))
            (output_store w) w
        else w in
      (Ok new_outputs, w)
  end.
(** The first loop of [_update_zones]. *)
Definition zone_unavailable (z : Zone.t) : Zone.t :=
  Zone.set_available false (Zone.set_state None z).
Definition mark_zones (w : WebioAPI) : WebioAPI :=
  with_zones (zones w)
    (foldl (λ h zone, alter zone_unavailable zone h) (zone_store w) (zones w)) w.

(** The four assignments that end the body of the second loop; [name] and
    [state] were read from the descriptor before the lookup. *)
Definition zone_assign (z : descriptor) (zone : Zone.t) : Zone.t :=
  let name := get z (KEY_NAME K) in
  let state := get z (KEY_STATUS K) in
  let zone := Zone.set_name name zone in
  let zone := Zone.set_state (_convert_zone_status state) zone in
  let zone := Zone.set_available (is_not_None (Zone.state zone)) zone in
  Zone.set_pass_type (get_default z (KEY_PASS_TYPE K) (VInt 2)) zone.

(** The second loop of [_update_zones]. *)
Fixpoint zones_loop (zs : list descriptor) (w : WebioAPI)
    (current_indexes : list Z) (new_zones : list loc)
    : outcome (list Z * list loc) * WebioAPI :=
  match zs with
  | [] => (Ok (current_indexes, new_zones), w)
  | z :: zs' =>
      match as_int (get_default z (KEY_INDEX K) (VInt (-1))) with
      | None => (Raise TypeError, w)
      | Some index =>
          if (index <? 0)%Z then zones_loop zs' w current_indexes new_zones
          else
            let current_indexes := current_indexes ++ [index] in
            match _get_zone w index with
            | Some webio_zone =>
                let w := with_zones (zones w)
                  (alter (zone_assign z) webio_zone (zone_store w)) w in
                zones_loop zs' w current_indexes new_zones
            | None =>
                match _info w !! KEY_DEVICE_SERIAL K with
                | None => (Raise KeyError, w)
                | Some serial =>
                    let webio_zone := length (zone_store w) in
                    let w := with_zones (zones w ++ [webio_zone])
                      (zone_store w ++ [Zone.init index serial None]) w in
                    let new_zones := new_zones ++ [webio_zone] in
                    let w := with_zones (zones w)
                      (alter (zone_assign z) webio_zone (zone_store w)) w in
                    zones_loop zs' w current_indexes new_zones
                end
            end
      end
  end.

(** [zone.index in current_indexes] *)
Definition zone_index_in (h : list Zone.t) (current_indexes : list Z)
    (z : loc) : bool :=
  match h !! z with
  | Some zone => bool_decide (Zone.index zone ∈ current_indexes)
  | None => false
  end.

(** [WebioAPI._update_zones] *)
Definition _update_zones (zs : list descriptor) (w : WebioAPI)
    : outcome (list loc) * WebioAPI :=
  let w := mark_zones w in
  match zones_loop zs w [] [] with
  | (Raise e, w) => (Raise e, w)
  | (Ok (current_indexes, new_zones), w) =>
      let w :=
        if (0 <? length current_indexes)%nat then
          with_zones
            (filter (λ z, zone_index_in (zone_store w) current_indexes z)
               (zones w))
            (zone_store w) w
        else w in
      (Ok new_zones, w)
  end.

(** [WebioAPI.update_device_status]. The returned dictionary has the two
    entries [KEY_OUTPUTS] and [KEY_ZONES]; it is given as the pair of their
    values. An exception raised while the outputs are reconciled leaves
    before the zones are looked at. *)
Definition update_device_status (new_status : snapshot) (w : WebioAPI)
    : outcome (list loc * list loc) * WebioAPI :=
  let webio_outputs := new_status !! KEY_OUTPUTS K in
  let r1 :=
    match webio_outputs with
    | None => (Ok [], w)
    | Some os => _update_outputs os w
    end in
  match r1 with
  | (Raise e, w) => (Raise e, w)
  | (Ok new_outputs, w) =>
      let webio_zones := new_status !! KEY_ZONES K in
      let r2 :=
        match webio_zones with
        | None => (Ok [], w)
        | Some zs => _update_zones zs w
        end in
      match r2 with
      | (Raise e, w) => (Raise e, w)
      | (Ok new_zones, w) => (Ok (new_outputs, new_zones), w)
      end
  end.

(** A call of the facade, and a run of calls from a given facade. A caller
    that catches an exception goes on with the facade as the failed call
    left it. *)
Inductive call : Type :=
  | CallRefresh (info : answer)
  | CallUpdate (new_status : snapshot).

Definition do_call (c : call) (w : WebioAPI) : WebioAPI :=
  match c with
  | CallRefresh info => snd (refresh_device_info info w)
  | CallUpdate s => snd (update_device_status s w)
  end.

Definition run (cs : list call) (w : WebioAPI) : WebioAPI :=
  foldl (λ w c, do_call c w) w cs.
End Facade.

(** ** The reconciliation engine, once for both categories

    [_update_outputs] and [_update_zones] are the same algorithm over two
    entity classes. The engine below states it once, over an entity type [E]
    with its index, the mark-unavailable step, the constructor call and the
    assignments made from a descriptor. The two source functions are proved
    equal to its instances ([update_outputs_reconcile],
    [update_zones_reconcile]); their properties are proved on the engine. *)
Section Engine.
Context {E : Type}.
Variable index_of : E → Z.
Variable unavailable : E → E.
Variable create : Z → value → E.
Variable assign : descriptor → E → E.
Variable key_index : string.

Definition has_index (h : list E) (i : Z) (l : loc) : bool :=
  match h !! l with
  | Some e => bool_decide (index_of e = i)
  | None => false
  end.

Definition lookup_index (h : list E) (ls : list loc) (i : Z) : option loc :=
  List.find (has_index h i) ls.

Definition mark (h : list E) (ls : list loc) : list E :=
  foldl (λ h l, alter unavailable l h) h ls.

Definition index_in (h : list E) (cur : list Z) (l : loc) : bool :=
  match h !! l with
  | Some e => bool_decide (index_of e ∈ cur)
  | None => false
  end.

Fixpoint pass (serial : option value) (ds : list descriptor)
    (h : list E) (ls : list loc) (cur : list Z) (new : list loc)
    : outcome (list Z * list loc) * (list E * list loc) :=
  match ds with
  | [] => (Ok (cur, new), (h, ls))
  | d :: ds' =>
      match as_int (get_default d key_index (VInt (-1))) with
      | None => (Raise TypeError, (h, ls))
      | Some i =>
          if (i <? 0)%Z then pass serial ds' h ls cur new
          else
            match lookup_index h ls i with
            | Some l => pass serial ds' (alter (assign d) l h) ls (cur ++ [i]) new
            | None =>
                match serial with
                | None => (Raise KeyError, (h, ls))
                | Some s =>
                    let l := length h in
                    pass serial ds' (alter (assign d) l (h ++ [create i s]))
                      (ls ++ [l]) (cur ++ [i]) (new ++ [l])
                end
            end
      end
  end.

Definition prune (h : list E) (cur : list Z) (ls : list loc) : list loc :=
  if (0 <? length cur)%nat then filter (λ l, index_in h cur l) ls else ls.

Definition reconcile (serial : option value) (ds : list descriptor)
    (h : list E) (ls : list loc) : outcome (list loc) * (list E * list loc) :=
  match pass serial ds (mark h ls) ls [] [] with
  | (Raise e, hl) => (Raise e, hl)
  | (Ok (cur, new), (h', ls')) => (Ok new, (h', prune h' cur ls'))
  end.

(** The index a descriptor contributes: [None] when it is skipped. *)
Definition desc_index (d : descriptor) : option Z :=
  match as_int (get_default d key_index (VInt (-1))) with
  | Some i => if (i <? 0)%Z then None else Some i
  | None => None
  end.

(** [index < 0] can be evaluated: the index is missing, an integer or a
    boolean. *)
Definition index_typed (d : descriptor) : bool :=
  is_not_None (as_int (get_default d key_index (VInt (-1)))).

(** The descriptor is passed over: it has no index or a negative one. *)
Definition index_skipped (d : descriptor) : bool :=
  match as_int (get_default d key_index (VInt (-1))) with
  | Some i => (i <? 0)%Z
  | None => false
  end.

(** The indexes a descriptor list records in [current_indexes]. *)
Definition seen (ds : list descriptor) : list Z := omap desc_index ds.

(** The last descriptor of [ds] that carries index [i]. *)
Definition last_with (i : Z) (ds : list descriptor) : option descriptor :=
  foldl (λ acc d, if decide (desc_index d = Some i) then Some d else acc) None ds.

(** Every retained location addresses a cell of the store. *)
Definition valid (h : list E) (ls : list loc) : Prop :=
  Forall (λ l, (l < length h)%nat) ls.

(** The indexes of the retained entities, in order. *)
Definition indexes (h : list E) (ls : list loc) : list (option Z) :=
  (λ l, index_of <$> h !! l) <$> ls.

(** What the loop has done to its variables after the descriptors [p],
    started from the store [h0] and the collection [ls0] with empty local
    lists: the seen indexes are those of [p], the created entities are
    appended to the collection and occupy the cells allocated since, and no
    cell that existed has changed its index. *)
Definition shape (h0 : list E) (ls0 : list loc)
    (p : list descriptor) (h : list E) (ls : list loc)
    (cur : list Z) (new : list loc) : Prop :=
  cur = seen p ∧ ls = ls0 ++ new ∧
  new = seq (length h0) (length new) ∧
  length h = (length h0 + length new)%nat ∧
  (∀ l, (l < length h0)%nat → index_of <$> h !! l = index_of <$> h0 !! l).

(** The descriptor that decides the fields of the entity [e] at [l]: the
    last one of [p] with its index, when [l] is the entity the lookup by
    that index finds. *)
Definition target (p : list descriptor) (h : list E) (ls : list loc)
    (l : loc) (e : E) : option descriptor :=
  if decide (lookup_index h ls (index_of e) = Some l)
  then last_with (index_of e) p else None.

Definition fixed_by (od : option descriptor) (e : E) : Prop :=
  match od with
  | Some d => assign d e = e
  | None => unavailable e = e
  end.

(** A store and a collection that reconciling [p] has brought to rest:
    every seen index is found, an entity decided by a descriptor carries
    that descriptor's values, and every other retained entity is
    unavailable. *)
Definition settled (p : list descriptor) (h : list E) (ls : list loc) : Prop :=
  valid h ls ∧
  (∀ i, i ∈ seen p → is_Some (lookup_index h ls i)) ∧
  (∀ l e, l ∈ ls → h !! l = Some e → fixed_by (target p h ls l e) e).

(** The loop over a collection in which every index is found: only the
    assignments are left of it. *)
Definition replay (ls : list loc) (ds : list descriptor) (h : list E) : list E :=
  foldl (λ h d,
    match desc_index d with
    | Some i =>
        match lookup_index h ls i with
        | Some l => alter (assign d) l h
        | None => h
        end
    | None => h
    end) h ds.

(** Every retained location addresses a cell, and no two retained entities
    share an index. *)
Definition distinct (h : list E) (ls : list loc) : Prop :=
  valid h ls ∧ NoDup (indexes h ls).
End Engine.

(** ** The two instances of the engine *)
Section Instances.
Variable K : Const.

Definition reconcile_outputs (serial : option value) (os : list descriptor)
    (h : list Output.t) (ls : list loc)
    : outcome (list loc) * (list Output.t * list loc) :=
  reconcile Output.index output_unavailable (λ i s, Output.init i s None)
    (output_assign K) (KEY_INDEX K) serial os h ls.

Definition reconcile_zones (serial : option value) (zs : list descriptor)
    (h : list Zone.t) (ls : list loc)
    : outcome (list loc) * (list Zone.t * list loc) :=
  reconcile Zone.index zone_unavailable (λ i s, Zone.init i s None)
    (zone_assign K) (KEY_INDEX K) serial zs h ls.

(** Every index of a category list can be compared with zero. *)
Definition category_typed (ds : option (list descriptor)) : bool :=
  forallb (index_typed (KEY_INDEX K)) (default [] ds).

Definition snapshot_typed (new_status : snapshot) : bool :=
  category_typed (new_status !! KEY_OUTPUTS K) &&
  category_typed (new_status !! KEY_ZONES K).

(** Every descriptor of the snapshot lacks an index or has a negative one. *)
Definition category_skipped (ds : option (list descriptor)) : bool :=
  forallb (index_skipped (KEY_INDEX K)) (default [] ds).

Definition snapshot_skipped (new_status : snapshot) : bool :=
  category_skipped (new_status !! KEY_OUTPUTS K) &&
  category_skipped (new_status !! KEY_ZONES K).
End Instances.

(** ** Conditions on a facade *)

(** Every retained reference addresses an object of its store. A Python
    reference cannot dangle, so every facade there is of this kind. *)
Definition wf (w : WebioAPI) : Prop :=
  valid (output_store w) (outputs w) ∧ valid (zone_store w) (zones w).

(** Index uniqueness within each retained collection. *)
Definition unique_indexes (w : WebioAPI) : Prop :=
  distinct Output.index (output_store w) (outputs w) ∧
  distinct Zone.index (zone_store w) (zones w).

(** [available == (state is not None)] for every entity ever constructed. *)
Definition consistent (w : WebioAPI) : Prop :=
  Forall Output.consistent (output_store w) ∧
  Forall Zone.consistent (zone_store w).

(** The retained entities of each category, in order. *)
Definition retained_outputs (w : WebioAPI) : list Output.t :=
  omap (λ l, output_store w !! l) (outputs w).
Definition retained_zones (w : WebioAPI) : list Zone.t :=
  omap (λ l, zone_store w !! l) (zones w).

(** ** Concrete facades and snapshots for the examples *)

Definition ex_info : dict :=
  {[ "webio-serial" := VStr "AB-12-CD"; "webio-name" := VStr "WebIO" ]}.

(** A device-info answer with a serial and no name. *)
Definition ex_info_no_name : dict := {[ "webio-serial" := VStr "AB-12-CD" ]}.

(** The facade after a successful [refresh_device_info]. *)
Definition ex_ready : WebioAPI :=
  snd (refresh_device_info spec_const (Mapping ex_info) init).

Definition ex_output (i : Z) (status : string) : descriptor :=
  {[ "index" := VInt i; "status" := VStr status ]}.

Definition ex_zone (i : Z) (name status : string) : descriptor :=
  {[ "index" := VInt i; "name" := VStr name; "status" := VStr status ]}.

Definition ex_snapshot : snapshot :=
  {[ "outputs" := [ex_output 0 "true"; ex_output 1 "false"];
     "zones" := [ex_zone 0 "door" "armed"; ex_zone 1 "hall" "disarmed";
                 ex_zone 2 "yard" "alarm"] ]}.

(** Two outputs and the zones 0, 1 and 2 are retained. *)
Definition ex_facade : WebioAPI :=
  snd (update_device_status spec_const ex_snapshot ex_ready).

(** One output descriptor, on a facade that has no serial yet. *)
Definition ex_snapshot_one : snapshot := {[ "outputs" := [ex_output 0 "true"] ]}.

(** A category list that is not empty and holds a single descriptor with no
    index. *)
Definition ex_malformed : descriptor := {[ "status" := VStr "true" ]}.
Definition ex_snapshot_malformed : snapshot :=
  {[ "outputs" := [ex_malformed] ]}.

(** Both category lists present and empty. *)
Definition ex_snapshot_empty : snapshot :=
  {[ "outputs" := []; "zones" := [] ]}.

(** Zone descriptors with the indexes 1 and 3, and a snapshot that has them
    and no [outputs] key. *)
Definition ex_zones_13 : list descriptor :=
  [ex_zone 1 "hall" "armed"; ex_zone 3 "garage" "alarm"].

Definition ex_snapshot_zones_only : snapshot := {[ "zones" := ex_zones_13 ]}.

(** [ex_facade] after the zones 1 and 3 have been reconciled. *)
Definition ex_pruned : WebioAPI :=
  snd (_update_zones spec_const ex_zones_13 ex_facade).

(** [ex_facade] after the malformed outputs list has been applied. *)
Definition ex_after_malformed : WebioAPI :=
  snd (update_device_status spec_const ex_snapshot_malformed ex_facade).

(** ** Accessors and commands

    The rest of the facade: the name accessor and the one-shot commands of
    the entities. The transport client is not part of the source, so a
    command is given as the request it hands to the client, and the client's
    [_host] attribute, the host the facade was constructed with, is a
    parameter of [get_name]. *)
Section Accessors.
Variable K : Const.

(** [WebioAPI.get_name]; as for [get_serial_number], [_info] is never
    [None]. *)
Definition get_name (host : string) (w : WebioAPI) : value :=
  let name := get (_info w) (KEY_DEVICE_NAME K) in
  if decide (name = VNone) then VStr host else name.
End Accessors.

(** A call of the transport client: [set_output(index, state)] or
    [arm_zone(index, arm, passcode)]. *)
Inductive request : Type :=
  | set_output (index : Z) (state : bool)
  | arm_zone (index : Z) (arm : bool) (passcode : option string).

(** [Output.turn_on] and [Output.turn_off] *)
Definition turn_on (self : Output.t) : request :=
  set_output (Output.index self) true.
Definition turn_off (self : Output.t) : request :=
  set_output (Output.index self) false.

(** [Zone.arm] and [Zone.disarm] *)
Definition arm (self : Zone.t) (passcode : option string) : request :=
  arm_zone (Zone.index self) true passcode.
Definition disarm (self : Zone.t) (passcode : option string) : request :=
  arm_zone (Zone.index self) false passcode.

(** The string has no hyphen left. *)
Fixpoint hyphen_free (s : string) : bool :=
  match s with
  | EmptyString => true
  | String c s' => negb (Ascii.eqb c "-"%char) && hyphen_free s'
  end.

(** The entities a first snapshot constructs: one for each descriptor that
    carries a valid index, its fields assigned from that descriptor. *)
Definition made {E : Type} (create : Z → value → E)
    (assign : descriptor → E → E) (key_index : string) (s : value)
    (ds : list descriptor) : list E :=
  omap (λ d, (λ i, assign d (create i s)) <$> desc_index key_index d) ds.

(** What every stored entity keeps from one facade to a later one: its
    location, its index and its serial. *)
Definition kept (w w' : WebioAPI) : Prop :=
  (∀ l o, output_store w !! l = Some o →
     ∃ o', output_store w' !! l = Some o' ∧
       Output.index o' = Output.index o ∧
       Output.webio_serial o' = Output.webio_serial o) ∧
  (∀ l z, zone_store w !! l = Some z →
     ∃ z', zone_store w' !! l = Some z' ∧
       Zone.index z' = Zone.index z ∧
       Zone.webio_serial z' = Zone.webio_serial z).

(** A serial as [refresh_device_info] stores it: a string with no hyphen. *)
Definition serial_ok (v : value) : bool :=
  match v with VStr s => hyphen_free s | _ => false end.

(** The stored serial and the serial of every entity are of that kind. *)
Definition serials_ok (K : Const) (w : WebioAPI) : Prop :=
  (∀ v, _info w !! KEY_DEVICE_SERIAL K = Some v → serial_ok v = true) ∧
  Forall (λ o, serial_ok (Output.webio_serial o) = true) (output_store w) ∧
  Forall (λ z, serial_ok (Zone.webio_serial z) = true) (zone_store w).

(** * Properties of the engine *)

Lemma find_ext_in {A : Type} (f g : A → bool) (l : list A) :
  (∀ x, x ∈ l → f x = g x) → List.find f l = List.find g l.
Proof.
  induction l as [|a l IH]; intros Hfg; [done|]. simpl.
  rewrite (Hfg a) by left.
  destruct (g a); [done|]. apply IH. intros x Hx. apply Hfg. by right.
Qed.

Lemma find_app {A : Type} (f : A → bool) (l k : list A) :
  List.find f (l ++ k) =
    match List.find f l with Some x => Some x | None => List.find f k end.
Proof. induction l as [|a l IH]; simpl; [done|]. by destruct (f a). Qed.

Lemma find_Some_elem {A : Type} (f : A → bool) (l : list A) (x : A) :
  List.find f l = Some x → x ∈ l ∧ f x = true.
Proof.
  induction l as [|a l IH]; simpl; [done|].
  destruct (f a) eqn:Ha.
  - intros [= <-]. split; [left|done].
  - intros H. destruct (IH H) as [? ?]. split; [by right|done].
Qed.

Lemma find_None_elem {A : Type} (f : A → bool) (l : list A) :
  List.find f l = None ↔ ∀ x, x ∈ l → f x = false.
Proof.
  induction l as [|a l IH]; simpl.
  - split; [|done]. intros _ x Hx. by apply elem_of_nil in Hx.
  - destruct (f a) eqn:Ha.
    + split; [done|]. intros H. specialize (H a). rewrite Ha in H.
      discriminate H. left.
    + rewrite IH. split.
      * intros H x Hx. apply elem_of_cons in Hx as [->|Hx]; auto.
      * intros H x Hx. apply H. by right.
Qed.

Lemma find_filter {A : Type} (f g : A → bool) (l : list A) :
  (∀ x, x ∈ l → f x = true → g x = true) →
  List.find f (filter (λ x, g x) l) = List.find f l.
Proof.
  induction l as [|a l IH]; intros Himp; [done|].
  rewrite filter_cons. simpl.
  assert (∀ x, x ∈ l → f x = true → g x = true) as Hl.
  { intros x Hx. apply Himp. by right. }
  destruct (decide (g a)) as [Hg|Hg]; simpl.
  - destruct (f a); [done|]. by apply IH.
  - destruct (f a) eqn:Hf.
    + exfalso. apply Hg. rewrite Himp; [done|left|done].
    + by apply IH.
Qed.

Section EngineFacts.
Context {E : Type}.
Variable index_of : E → Z.
Variable unavailable : E → E.
Variable create : Z → value → E.
Variable assign : descriptor → E → E.
Variable key_index : string.

Hypothesis index_unavailable : ∀ e, index_of (unavailable e) = index_of e.
Hypothesis index_assign : ∀ d e, index_of (assign d e) = index_of e.
Hypothesis index_create : ∀ i s, index_of (create i s) = i.
Hypothesis unavailable_idem : ∀ e, unavailable (unavailable e) = unavailable e.
Hypothesis assign_unavailable : ∀ d e, assign d (unavailable e) = assign d e.
Hypothesis assign_assign : ∀ d d' e, assign d (assign d' e) = assign d e.

#[local] Abbreviation has_index' := (has_index index_of).
#[local] Abbreviation lookup_index' := (lookup_index index_of).
#[local] Abbreviation mark' := (mark unavailable).
#[local] Abbreviation index_in' := (index_in index_of).
#[local] Abbreviation pass' := (pass index_of create assign key_index).
#[local] Abbreviation prune' := (prune index_of).
#[local] Abbreviation reconcile' :=
  (reconcile index_of unavailable create assign key_index).
#[local] Abbreviation desc_index' := (desc_index key_index).
#[local] Abbreviation seen' := (seen key_index).
#[local] Abbreviation last_with' := (last_with key_index).
#[local] Abbreviation indexes' := (indexes index_of).
#[local] Abbreviation index_typed' := (index_typed key_index).
#[local] Abbreviation index_skipped' := (index_skipped key_index).
#[local] Abbreviation shape' := (shape index_of key_index).
#[local] Abbreviation target' := (target index_of key_index).
#[local] Abbreviation fixed_by' := (fixed_by unavailable assign).
#[local] Abbreviation replay' := (replay index_of assign key_index).
#[local] Abbreviation distinct' := (distinct index_of).
#[local] Abbreviation settled' :=
  (settled index_of unavailable assign key_index).

(** *** Lookups by index see only the index of each cell *)

Lemma has_index_alter (f : E → E) (h : list E) (l l' : loc) (i : Z) :
  (∀ e, index_of (f e) = index_of e) →
  has_index' (alter f l h) i l' = has_index' h i l'.
Proof.
  intros Hf. unfold has_index.
  destruct (decide (l = l')) as [->|Hne].
  - rewrite list_lookup_alter_eq. destruct (h !! l'); simpl; [|done].
    by rewrite Hf.
  - by rewrite list_lookup_alter_ne.
Qed.

Lemma lookup_index_alter (f : E → E) (h : list E) (ls : list loc) (l : loc) (i : Z) :
  (∀ e, index_of (f e) = index_of e) →
  lookup_index' (alter f l h) ls i = lookup_index' h ls i.
Proof.
  intros Hf. apply find_ext_in. intros l' _. by apply has_index_alter.
Qed.

Lemma has_index_app (h t : list E) (l : loc) (i : Z) :
  (l < length h)%nat → has_index' (h ++ t) i l = has_index' h i l.
Proof. intros Hl. unfold has_index. by rewrite lookup_app_l. Qed.

Lemma lookup_index_app_store (h t : list E) (ls : list loc) (i : Z) :
  valid h ls → lookup_index' (h ++ t) ls i = lookup_index' h ls i.
Proof.
  intros Hv. apply find_ext_in. intros l Hl. apply has_index_app.
  unfold valid in Hv. rewrite Forall_forall in Hv. by apply Hv.
Qed.

Lemma has_index_true (h : list E) (l : loc) (i : Z) :
  has_index' h i l = true ↔ ∃ e, h !! l = Some e ∧ index_of e = i.
Proof.
  unfold has_index. destruct (h !! l) as [e|].
  - rewrite bool_decide_eq_true. split; [eauto|]. by intros (? & [= <-] & ?).
  - split; [done|]. by intros (? & ? & ?).
Qed.

Lemma lookup_index_Some (h : list E) (ls : list loc) (i : Z) (l : loc) :
  lookup_index' h ls i = Some l →
  l ∈ ls ∧ ∃ e, h !! l = Some e ∧ index_of e = i.
Proof.
  intros H. apply find_Some_elem in H as [? ?]. split; [done|].
  by apply has_index_true.
Qed.

Lemma lookup_index_None (h : list E) (ls : list loc) (i : Z) :
  lookup_index' h ls i = None ↔
  ∀ l e, l ∈ ls → h !! l = Some e → index_of e ≠ i.
Proof.
  unfold lookup_index. rewrite find_None_elem. split.
  - intros H l e Hl He Hi. specialize (H l Hl).
    assert (has_index' h i l = true) as Ht by (apply has_index_true; eauto).
    congruence.
  - intros H l Hl. destruct (has_index' h i l) eqn:Ht; [|done].
    apply has_index_true in Ht as (e & He & Hi). by destruct (H l e Hl He).
Qed.

(** *** The mark-unavailable loop *)

Lemma length_mark (h : list E) (ls : list loc) : length (mark' h ls) = length h.
Proof.
  revert h. induction ls as [|a ls IH]; intros h; [done|].
  unfold mark in *. simpl. by rewrite IH, length_alter.
Qed.

Lemma lookup_mark (h : list E) (ls : list loc) (l : loc) :
  mark' h ls !! l =
    (if decide (l ∈ ls) then unavailable <$> h !! l else h !! l).
Proof.
  revert h. induction ls as [|a ls IH]; intros h.
  - simpl. destruct (decide (l ∈ [])) as [Hin|]; [|done].
    by apply elem_of_nil in Hin.
  - change (mark' h (a :: ls)) with (mark' (alter unavailable a h) ls).
    rewrite IH. destruct (decide (a = l)) as [->|Hne].
    + rewrite list_lookup_alter_eq.
      rewrite (decide_True (P := l ∈ l :: ls)) by left.
      destruct (decide (l ∈ ls)); [|done].
      destruct (h !! l); simpl; [|done]. by rewrite unavailable_idem.
    + rewrite list_lookup_alter_ne by done.
      destruct (decide (l ∈ ls)) as [Hin|Hin].
      * rewrite decide_True; [done|by right].
      * rewrite decide_False; [done|]. intros Hc.
        apply elem_of_cons in Hc as [?|?]; congruence.
Qed.

Lemma has_index_mark (h : list E) (ls : list loc) (i : Z) (l : loc) :
  has_index' (mark' h ls) i l = has_index' h i l.
Proof.
  unfold has_index. rewrite lookup_mark.
  destruct (decide (l ∈ ls)); [|done].
  destruct (h !! l); simpl; [|done]. by rewrite index_unavailable.
Qed.

Lemma lookup_index_mark (h : list E) (ls ls' : list loc) (i : Z) :
  lookup_index' (mark' h ls) ls' i = lookup_index' h ls' i.
Proof. apply find_ext_in. intros l _. apply has_index_mark. Qed.

Lemma valid_mark (h : list E) (ls ls' : list loc) :
  valid h ls' → valid (mark' h ls) ls'.
Proof. unfold valid. by rewrite length_mark. Qed.

(** *** Descriptors *)

Lemma desc_index_Some (d : descriptor) (i : Z) :
  desc_index' d = Some i ↔
  as_int (get_default d key_index (VInt (-1))) = Some i ∧ (i <? 0)%Z = false.
Proof.
  unfold desc_index. destruct (as_int _) as [j|].
  - destruct (j <? 0)%Z eqn:Hj.
    + split; [done|]. intros [[= ->] ?]. congruence.
    + split; [by intros [= ->]|]. by intros [[= ->] _].
  - split; [done|]. by intros [? _].
Qed.

Lemma seen_snoc (p : list descriptor) (d : descriptor) :
  seen' (p ++ [d]) = seen' p ++ from_option (λ i, [i]) [] (desc_index' d).
Proof.
  unfold seen. rewrite omap_app. simpl. by destruct (desc_index' d).
Qed.

Lemma last_with_snoc (i : Z) (p : list descriptor) (d : descriptor) :
  last_with' i (p ++ [d]) =
    if decide (desc_index' d = Some i) then Some d else last_with' i p.
Proof. unfold last_with. by rewrite foldl_app. Qed.

Lemma last_with_Some_index (i : Z) (p : list descriptor) (d : descriptor) :
  last_with' i p = Some d → desc_index' d = Some i ∧ d ∈ p.
Proof.
  induction p as [|d' p IH] using rev_ind; [done|].
  rewrite last_with_snoc. destruct (decide (desc_index' d' = Some i)).
  - intros [= <-]. split; [done|]. apply elem_of_app. right. left.
  - intros H. destruct (IH H) as [? ?]. split; [done|].
    apply elem_of_app. by left.
Qed.

Lemma last_with_is_Some (i : Z) (p : list descriptor) :
  is_Some (last_with' i p) ↔ i ∈ seen' p.
Proof.
  induction p as [|d p IH] using rev_ind.
  - split; [by intros [? ?]|]. intros H. by apply elem_of_nil in H.
  - rewrite last_with_snoc, seen_snoc, elem_of_app, <- IH.
    destruct (decide (desc_index' d = Some i)) as [Hd|Hd].
    + rewrite Hd. simpl. split; [|eauto]. intros _. right. left.
    + split; [by left|]. intros [H|H]; [done|].
      destruct (desc_index' d) as [j|]; simpl in H.
      * apply list_elem_of_singleton in H as ->. done.
      * by apply elem_of_nil in H.
Qed.

Lemma last_with_None (i : Z) (p : list descriptor) :
  last_with' i p = None ↔ i ∉ seen' p.
Proof.
  rewrite <- last_with_is_Some. rewrite <- eq_None_not_Some. done.
Qed.

(** *** The snapshot loop, step by step

    An invariant of the loop is a property of the descriptors processed so
    far and of the loop's variables that the three kinds of iteration keep:
    a descriptor that is skipped, one whose entity is found, one whose
    entity is created. When the loop raises, the invariant holds of the
    descriptors processed before the one that raised. *)
Lemma pass_invariant
    (I : list descriptor → list E → list loc → list Z → list loc → Prop) :
  (∀ p d h ls cur new,
     desc_index' d = None → I p h ls cur new → I (p ++ [d]) h ls cur new) →
  (∀ p d i l h ls cur new,
     desc_index' d = Some i → lookup_index' h ls i = Some l →
     I p h ls cur new →
     I (p ++ [d]) (alter (assign d) l h) ls (cur ++ [i]) new) →
  (∀ p d i s h ls cur new,
     desc_index' d = Some i → lookup_index' h ls i = None →
     I p h ls cur new →
     I (p ++ [d]) (alter (assign d) (length h) (h ++ [create i s]))
       (ls ++ [length h]) (cur ++ [i]) (new ++ [length h])) →
  ∀ serial ds p h ls cur new r h' ls',
    I p h ls cur new →
    pass' serial ds h ls cur new = (r, (h', ls')) →
    match r with
    | Ok (cur', new') => I (p ++ ds) h' ls' cur' new'
    | Raise _ => ∃ p' cur' new', I (p ++ p') h' ls' cur' new'
    end.
Proof.
  intros Hskip Hfound Hcreate serial ds.
  induction ds as [|d ds IH]; intros p h ls cur new r h' ls' HI Hp.
  - simpl in Hp. injection Hp as <- <- <-. by rewrite app_nil_r.
  - simpl in Hp.
    replace (p ++ d :: ds) with ((p ++ [d]) ++ ds) by by rewrite <- app_assoc.
    destruct (as_int (get_default d key_index (VInt (-1)))) as [i|] eqn:Hi.
    2:{ injection Hp as <- <- <-. exists [], cur, new. by rewrite app_nil_r. }
    destruct (i <? 0)%Z eqn:Hneg.
    { apply (IH (p ++ [d])) in Hp; [|apply Hskip; [|done]].
      - destruct r as [[cur' new']|e]; [done|].
        destruct Hp as (p' & cur' & new' & Hp). exists ([d] ++ p'), cur', new'.
        by rewrite app_assoc.
      - unfold desc_index. by rewrite Hi, Hneg. }
    assert (desc_index' d = Some i) as Hd by by apply desc_index_Some.
    destruct (lookup_index' h ls i) as [l|] eqn:Hl.
    { apply (IH (p ++ [d])) in Hp; [|by apply Hfound].
      destruct r as [[cur' new']|e]; [done|].
      destruct Hp as (p' & cur' & new' & Hp). exists ([d] ++ p'), cur', new'.
      by rewrite app_assoc. }
    destruct serial as [s|].
    2:{ injection Hp as <- <- <-. exists [], cur, new. by rewrite app_nil_r. }
    apply (IH (p ++ [d])) in Hp; [|by apply Hcreate].
    destruct r as [[cur' new']|e]; [done|].
    destruct Hp as (p' & cur' & new' & Hp). exists ([d] ++ p'), cur', new'.
    by rewrite app_assoc.
Qed.

(** The loop returns exactly when every index can be compared with zero
    and the device serial is there for each entity to create. *)
Lemma pass_returns (s : value) (ds : list descriptor) (h : list E)
    (ls : list loc) (cur : list Z) (new : list loc) :
  Forall (λ d, index_typed' d = true) ds →
  returns (fst (pass' (Some s) ds h ls cur new)) = true.
Proof.
  revert h ls cur new. induction ds as [|d ds IH]; intros h ls cur new Ht; [done|].
  apply Forall_cons in Ht as [Hd Ht]. simpl. unfold index_typed in Hd.
  destruct (as_int _) as [i|]; [|done].
  destruct (i <? 0)%Z; [by apply IH|].
  destruct (lookup_index' h ls i); by apply IH.
Qed.

Lemma pass_Ok_typed serial ds h ls cur new r hl :
  pass' serial ds h ls cur new = (Ok r, hl) →
  Forall (λ d, index_typed' d = true) ds.
Proof.
  revert h ls cur new. induction ds as [|d ds IH]; intros h ls cur new Hp; [done|].
  simpl in Hp. unfold index_typed at 1.
  destruct (as_int (get_default d key_index (VInt (-1)))) as [i|] eqn:Hi; [|done].
  apply Forall_cons. split; [by rewrite Hi|].
  destruct (i <? 0)%Z; [by eapply IH|].
  destruct (lookup_index' h ls i); [by eapply IH|].
  destruct serial; [by eapply IH|done].
Qed.

(** *** What the loop does to the lists and to the size of the store *)

Lemma pass_shape serial ds h0 ls0 r h' ls' :
  pass' serial ds h0 ls0 [] [] = (r, (h', ls')) →
  match r with
  | Ok (cur', new') => shape' h0 ls0 ds h' ls' cur' new'
  | Raise _ => ∃ p' cur' new', shape' h0 ls0 p' h' ls' cur' new'
  end.
Proof.
  intros Hp.
  refine (pass_invariant (shape' h0 ls0) _ _ _ serial ds [] h0 ls0 [] [] r h' ls' _ Hp).
  - intros p d h ls cur new Hd (-> & -> & Hnew & Hlen & Hidx).
    split_and!; try done. by rewrite seen_snoc, Hd, app_nil_r.
  - intros p d i l h ls cur new Hd Hl (-> & -> & Hnew & Hlen & Hidx).
    split_and!; try done.
    + by rewrite seen_snoc, Hd.
    + by rewrite length_alter.
    + intros l' Hl'. rewrite <- Hidx by done.
      rewrite list_lookup_alter. case_decide; [|done]. subst.
      destruct (h !! l'); simpl; [|done]. by rewrite index_assign.
  - intros p d i s h ls cur new Hd Hl (-> & -> & Hnew & Hlen & Hidx).
    split_and!.
    + by rewrite seen_snoc, Hd.
    + by rewrite app_assoc.
    + rewrite length_app. simpl. rewrite seq_app, <- Hnew. simpl.
      by rewrite Hlen.
    + rewrite length_alter, !length_app. simpl. lia.
    + intros l' Hl'. rewrite <- Hidx by done.
      rewrite list_lookup_alter_ne by lia. rewrite lookup_app_l by lia. done.
  - split_and!; try done. by rewrite app_nil_r.
Qed.

Lemma valid_elem (h : list E) (ls : list loc) (l : loc) :
  valid h ls → l ∈ ls → (l < length h)%nat.
Proof. unfold valid. rewrite Forall_forall. auto. Qed.

Lemma lookup_index_create (h : list E) (ls : list loc) (d : descriptor)
    (i i' : Z) (s : value) :
  valid h ls →
  lookup_index' (alter (assign d) (length h) (h ++ [create i s]))
    (ls ++ [length h]) i' =
    match lookup_index' h ls i' with
    | Some x => Some x
    | None => if decide (i = i') then Some (length h) else None
    end.
Proof.
  intros Hv. rewrite lookup_index_alter by apply index_assign.
  unfold lookup_index at 1. rewrite find_app.
  fold (lookup_index' (h ++ [create i s]) ls i').
  rewrite lookup_index_app_store by done.
  destruct (lookup_index' h ls i'); [done|].
  unfold has_index. simpl.
  rewrite lookup_app_r by lia. rewrite Nat.sub_diag. simpl.
  rewrite index_create. case_bool_decide; by case_decide.
Qed.

(** *** The loop brings the retained entities to rest *)

Lemma target_snoc_other (p : list descriptor) (d : descriptor)
    (h : list E) (ls : list loc) (l : loc) (e : E) :
  desc_index' d ≠ Some (index_of e) →
  target' (p ++ [d]) h ls l e = target' p h ls l e.
Proof.
  intros Hd. unfold target. rewrite last_with_snoc.
  by rewrite (decide_False (P := desc_index' d = Some (index_of e))).
Qed.

Lemma settled_nil (h : list E) (ls : list loc) :
  valid h ls →
  (∀ l e, l ∈ ls → h !! l = Some e → unavailable e = e) →
  settled' [] h ls.
Proof.
  intros Hv Hu. split_and!; [done|..].
  - intros i Hi. by apply elem_of_nil in Hi.
  - intros l e Hl He. unfold target, fixed_by.
    destruct (decide _); simpl; by eapply Hu.
Qed.

Lemma settled_skip p d h ls :
  desc_index' d = None → settled' p h ls → settled' (p ++ [d]) h ls.
Proof.
  intros Hd (Hv & Hs & Hf). split_and!; [done|..].
  - intros i. rewrite seen_snoc, Hd, app_nil_r. apply Hs.
  - intros l e Hl He. rewrite target_snoc_other by (rewrite Hd; done).
    by apply Hf.
Qed.

Lemma settled_found p d i l h ls :
  desc_index' d = Some i → lookup_index' h ls i = Some l →
  settled' p h ls → settled' (p ++ [d]) (alter (assign d) l h) ls.
Proof.
  intros Hd Hl (Hv & Hs & Hf).
  destruct (lookup_index_Some _ _ _ _ Hl) as (Hin & e0 & He0 & Hi0).
  split_and!.
  - unfold valid. by rewrite length_alter.
  - intros i'. rewrite seen_snoc, Hd. simpl.
    rewrite lookup_index_alter by apply index_assign.
    intros [Hi'|Hi']%elem_of_app; [by apply Hs|].
    apply list_elem_of_singleton in Hi' as ->. rewrite Hl. eauto.
  - intros l' e' Hl' He'. unfold target.
    rewrite lookup_index_alter by apply index_assign.
    destruct (decide (l = l')) as [<-|Hne].
    + rewrite list_lookup_alter_eq, He0 in He'. injection He' as <-.
      rewrite index_assign, Hi0, Hl, decide_True by done.
      rewrite last_with_snoc, decide_True by done. simpl.
      apply assign_assign.
    + rewrite list_lookup_alter_ne in He' by done.
      specialize (Hf l' e' Hl' He'). unfold target in Hf.
      destruct (decide (lookup_index' h ls (index_of e') = Some l')) as [Hlk|];
        [|done].
      rewrite last_with_snoc, decide_False; [done|].
      rewrite Hd. intros [= ->]. congruence.
Qed.

Lemma settled_create p d i s h ls :
  desc_index' d = Some i → lookup_index' h ls i = None →
  settled' p h ls →
  settled' (p ++ [d]) (alter (assign d) (length h) (h ++ [create i s]))
    (ls ++ [length h]).
Proof.
  intros Hd Hl (Hv & Hs & Hf). split_and!.
  - unfold valid. rewrite length_alter, length_app. simpl.
    apply Forall_app. split.
    + eapply Forall_impl; [exact Hv|]. simpl. lia.
    + apply Forall_singleton. lia.
  - intros i'. rewrite seen_snoc, Hd. simpl.
    rewrite lookup_index_create by done.
    intros [Hi'|Hi']%elem_of_app.
    + destruct (Hs i' Hi') as [x ->]. eauto.
    + apply list_elem_of_singleton in Hi' as ->. rewrite Hl.
      rewrite decide_True by done. eauto.
  - intros l' e' Hl' He'. unfold target.
    rewrite lookup_index_create by done.
    apply elem_of_app in Hl' as [Hl'|Hl'].
    + pose proof (valid_elem _ _ _ Hv Hl') as Hlt.
      rewrite list_lookup_alter_ne in He' by lia.
      rewrite lookup_app_l in He' by done.
      assert (index_of e' ≠ i) as Hne.
      { rewrite lookup_index_None in Hl. by eapply Hl. }
      specialize (Hf l' e' Hl' He'). unfold target in Hf.
      rewrite last_with_snoc, (decide_False (P := desc_index' d = _)).
      2:{ rewrite Hd. intros [= ->]. congruence. }
      destruct (lookup_index' h ls (index_of e')) as [x|] eqn:Hx; [done|].
      by rewrite (decide_False (P := i = index_of e')) by congruence.
    + apply list_elem_of_singleton in Hl' as ->.
      rewrite list_lookup_alter_eq, lookup_app_r, Nat.sub_diag in He' by lia.
      simpl in He'. injection He' as <-.
      rewrite index_assign, index_create, Hl.
      rewrite (decide_True (P := i = i)) by done. rewrite decide_True by done.
      rewrite last_with_snoc, decide_True by done. simpl.
      apply assign_assign.
Qed.

Lemma pass_settled serial ds h0 ls0 r h' ls' :
  settled' [] h0 ls0 →
  pass' serial ds h0 ls0 [] [] = (r, (h', ls')) →
  ∃ p, settled' p h' ls' ∧ (returns r = true → p = ds).
Proof.
  intros H0 Hp.
  pose proof (pass_invariant (λ p h ls _ _, settled' p h ls)
    (λ p d h ls _ _, settled_skip p d h ls)
    (λ p d i l h ls _ _, settled_found p d i l h ls)
    (λ p d i s h ls _ _, settled_create p d i s h ls)
    serial ds [] h0 ls0 [] [] r h' ls' H0 Hp) as H.
  destruct r as [[cur new]|e].
  - by exists ds.
  - destruct H as (p' & _ & _ & H). by exists p'.
Qed.

(** *** Reconciling a second time *)

Lemma lookup_index_replay (ls ls' : list loc) (ds : list descriptor)
    (h : list E) (i : Z) :
  lookup_index' (replay' ls ds h) ls' i = lookup_index' h ls' i.
Proof.
  revert h. induction ds as [|d ds IH]; intros h; [done|].
  unfold replay in *. simpl. rewrite IH.
  destruct (desc_index' d) as [j|]; [|done].
  destruct (lookup_index' h ls j); [|done].
  apply lookup_index_alter, index_assign.
Qed.

Lemma replay_snoc (ls : list loc) (p : list descriptor) (d : descriptor)
    (h : list E) :
  replay' ls (p ++ [d]) h =
    match desc_index' d with
    | Some i =>
        match lookup_index' h ls i with
        | Some l => alter (assign d) l (replay' ls p h)
        | None => replay' ls p h
        end
    | None => replay' ls p h
    end.
Proof.
  unfold replay at 1. rewrite foldl_app. simpl.
  fold (replay' ls p h). destruct (desc_index' d); [|done].
  by rewrite lookup_index_replay.
Qed.

Lemma seen_cons (d : descriptor) (ds : list descriptor) :
  seen' (d :: ds) = from_option (λ i, [i]) [] (desc_index' d) ++ seen' ds.
Proof. unfold seen. simpl. by destruct (desc_index' d). Qed.

Lemma pass_replay serial ds h ls cur new :
  Forall (λ d, index_typed' d = true) ds →
  (∀ i, i ∈ seen' ds → is_Some (lookup_index' h ls i)) →
  pass' serial ds h ls cur new = (Ok (cur ++ seen' ds, new), (replay' ls ds h, ls)).
Proof.
  revert h cur. induction ds as [|d ds IH]; intros h cur Ht Hs.
  - simpl. by rewrite app_nil_r.
  - apply Forall_cons in Ht as [Hd Ht].
    change (replay' ls (d :: ds) h) with (replay' ls ds
      match desc_index' d with
      | Some i =>
          match lookup_index' h ls i with
          | Some l => alter (assign d) l h
          | None => h
          end
      | None => h
      end).
    rewrite seen_cons. rewrite seen_cons in Hs.
    unfold index_typed in Hd. unfold desc_index in *. simpl.
    destruct (as_int (get_default d key_index (VInt (-1)))) as [i|] eqn:Hi;
      [|done].
    destruct (i <? 0)%Z eqn:Hneg; simpl in *.
    + by apply IH.
    + destruct (Hs i) as [l Hl]; [left|]. rewrite Hl.
      rewrite IH; [|done|].
      * by rewrite <- app_assoc.
      * intros j Hj. rewrite lookup_index_alter by apply index_assign.
        apply Hs. by right.
Qed.

Lemma target_snoc_miss (p : list descriptor) (d : descriptor)
    (h : list E) (ls : list loc) (l : loc) (e : E) :
  lookup_index' h ls (index_of e) ≠ Some l →
  target' (p ++ [d]) h ls l e = target' p h ls l e.
Proof. intros Hne. unfold target. by rewrite !decide_False. Qed.

Lemma lookup_replay (ls : list loc) (ds : list descriptor) (h : list E) (l : loc) :
  replay' ls ds h !! l =
    (λ e, from_option (λ d, assign d e) e (target' ds h ls l e)) <$> h !! l.
Proof.
  induction ds as [|d p IH] using rev_ind.
  - unfold target, replay. simpl. destruct (h !! l) as [e|]; simpl; [|done].
    by destruct (decide _).
  - rewrite replay_snoc.
    destruct (desc_index' d) as [i|] eqn:Hd.
    2:{ rewrite IH. destruct (h !! l) as [e|]; simpl; [|done].
        rewrite target_snoc_other; [done|]. by rewrite Hd. }
    assert (∀ e, index_of e = i → lookup_index' h ls i ≠ Some l →
      target' (p ++ [d]) h ls l e = target' p h ls l e) as Hmiss.
    { intros e <- Hne. by apply target_snoc_miss. }
    assert (∀ e, index_of e ≠ i →
      target' (p ++ [d]) h ls l e = target' p h ls l e) as Hoth.
    { intros e Hne. apply target_snoc_other. rewrite Hd. congruence. }
    destruct (lookup_index' h ls i) as [l0|] eqn:Hl0.
    + destruct (lookup_index_Some _ _ _ _ Hl0) as (Hin & e0 & He0 & Hi0).
      destruct (decide (l0 = l)) as [->|Hne].
      * rewrite list_lookup_alter_eq, IH, He0. simpl. f_equal.
        unfold target. rewrite Hi0, Hl0, !decide_True by done.
        rewrite last_with_snoc, decide_True by done. simpl.
        destruct (last_with' i p); simpl; [apply assign_assign|done].
      * rewrite list_lookup_alter_ne, IH by done.
        destruct (h !! l) as [e|]; simpl; [|done]. f_equal.
        destruct (decide (index_of e = i)) as [Hi|Hi].
        -- rewrite Hmiss; [done..|congruence].
        -- by rewrite Hoth.
    + rewrite IH. destruct (h !! l) as [e|]; simpl; [|done]. f_equal.
      destruct (decide (index_of e = i)) as [Hi|Hi].
      * by rewrite Hmiss.
      * by rewrite Hoth.
Qed.

Lemma filter_all {A : Type} (P : A → Prop) `{∀ x, Decision (P x)} (l : list A) :
  (∀ x, x ∈ l → P x) → filter P l = l.
Proof.
  induction l as [|a l IH]; intros HP; [done|].
  rewrite filter_cons, decide_True by (apply HP; left).
  f_equal. apply IH. intros x Hx. apply HP. by right.
Qed.

(** Marking and replaying the descriptors over a store at rest gives the
    store back. *)
Lemma replay_mark_settled (p : list descriptor) (h : list E) (ls : list loc) :
  settled' p h ls → replay' ls p (mark' h ls) = h.
Proof.
  intros (Hv & Hs & Hf).
  apply list_eq. intros l. rewrite lookup_replay, lookup_mark.
  destruct (h !! l) as [e|] eqn:He.
  2:{ by destruct (decide (l ∈ ls)). }
  unfold target. destruct (decide (l ∈ ls)) as [Hin|Hin]; simpl; f_equal.
  - rewrite lookup_index_mark, index_unavailable.
    specialize (Hf l e Hin He). unfold target in Hf.
    destruct (decide (lookup_index' h ls (index_of e) = Some l)); simpl.
    + destruct (last_with' (index_of e) p) as [d|]; simpl in *; [|done].
      by rewrite assign_unavailable.
    + done.
  - rewrite lookup_index_mark.
    rewrite decide_False; [done|]. intros Hl.
    by apply lookup_index_Some in Hl as [? _].
Qed.

(** A store at rest is a fixed point: reconciling the same descriptors
    again creates nothing and changes nothing. *)
Lemma reconcile_fixpoint serial ds h ls :
  Forall (λ d, index_typed' d = true) ds →
  settled' ds h ls →
  (seen' ds ≠ [] → ∀ l, l ∈ ls → index_in' h (seen' ds) l = true) →
  reconcile' serial ds h ls = (Ok [], (h, ls)).
Proof.
  intros Ht Hs Hpr. unfold reconcile.
  rewrite pass_replay; [|done|].
  2:{ intros i Hi. rewrite lookup_index_mark. destruct Hs as (_ & Hs & _).
      by apply Hs. }
  rewrite (replay_mark_settled _ _ _ Hs).
  f_equal. f_equal. unfold prune. simpl.
  destruct (0 <? length (seen' ds))%nat eqn:Hlen; [|done].
  apply filter_all. intros l Hl. rewrite Hpr; [done| |done].
  intros Hnil. rewrite Hnil in Hlen. done.
Qed.

(** *** One reconciliation *)

Lemma mark_settled (h : list E) (ls : list loc) :
  valid h ls → settled' [] (mark' h ls) ls.
Proof.
  intros Hv. apply settled_nil; [by apply valid_mark|].
  intros l e Hl. rewrite lookup_mark, decide_True by done.
  destruct (h !! l) as [e0|]; simpl; [|done].
  intros [= <-]. apply unavailable_idem.
Qed.

Lemma lookup_index_filter (h : list E) (cur : list Z) (ls : list loc) (i : Z) :
  i ∈ cur →
  lookup_index' h (filter (λ l, index_in' h cur l) ls) i = lookup_index' h ls i.
Proof.
  intros Hi. apply find_filter. intros l _ Hl.
  apply has_index_true in Hl as (e & He & <-).
  unfold index_in. rewrite He. by apply bool_decide_eq_true.
Qed.

Lemma index_in_true (h : list E) (cur : list Z) (l : loc) :
  index_in' h cur l = true ↔ ∃ e, h !! l = Some e ∧ index_of e ∈ cur.
Proof.
  unfold index_in. destruct (h !! l) as [e|].
  - rewrite bool_decide_eq_true. split; [eauto|]. by intros (? & [= <-] & ?).
  - split; [done|]. by intros (? & ? & ?).
Qed.

Lemma settled_prune (ds : list descriptor) (h : list E) (ls : list loc) :
  settled' ds h ls → settled' ds h (prune' h (seen' ds) ls).
Proof.
  intros (Hv & Hs & Hf). unfold prune.
  destruct (0 <? length (seen' ds))%nat; [|done]. split_and!.
  - unfold valid in *. rewrite Forall_forall in *. intros l Hl.
    apply list_elem_of_filter in Hl as [_ Hl]. by apply Hv.
  - intros i Hi. rewrite lookup_index_filter by done. by apply Hs.
  - intros l e Hl He. apply list_elem_of_filter in Hl as [Hin Hl].
    apply Is_true_true, index_in_true in Hin as (e' & He' & Hin).
    assert (e' = e) as -> by congruence.
    unfold target. rewrite lookup_index_filter by done. by apply Hf.
Qed.

Lemma prune_index_in (h : list E) (cur : list Z) (ls : list loc) (l : loc) :
  cur ≠ [] → l ∈ prune' h cur ls → index_in' h cur l = true.
Proof.
  unfold prune. destruct cur as [|i cur]; [done|]. simpl. intros _ Hl.
  apply list_elem_of_filter in Hl as [Hin _]. by apply Is_true_true.
Qed.

(** What a reconciliation that returns leaves behind. *)
Lemma reconcile_Ok serial ds h ls new h1 ls1 :
  reconcile' serial ds h ls = (Ok new, (h1, ls1)) →
  ∃ ls', pass' serial ds (mark' h ls) ls [] [] = (Ok (seen' ds, new), (h1, ls'))
       ∧ ls1 = prune' h1 (seen' ds) ls' ∧ ls' = ls ++ new.
Proof.
  unfold reconcile.
  destruct (pass' serial ds (mark' h ls) ls [] []) as [[[cur new']|e] [h' ls']] eqn:Hp;
    [|done].
  intros [= -> -> <-].
  pose proof (pass_shape _ _ _ _ _ _ _ Hp) as (-> & -> & _). eauto.
Qed.

Lemma reconcile_settled serial ds h ls new h1 ls1 :
  valid h ls →
  reconcile' serial ds h ls = (Ok new, (h1, ls1)) →
  settled' ds h1 ls1.
Proof.
  intros Hv Hr. apply reconcile_Ok in Hr as (ls' & Hp & -> & _).
  apply settled_prune.
  destruct (pass_settled _ _ _ _ _ _ _ (mark_settled h ls Hv) Hp) as (p & Hs & Hds).
  by rewrite <- Hds.
Qed.

(** Idempotence of the engine: after a reconciliation that returned, the
    same descriptors reconcile to an empty delta and leave the store and
    the collection as they are. *)
Lemma reconcile_idempotent serial serial' ds h ls new h1 ls1 :
  valid h ls →
  reconcile' serial ds h ls = (Ok new, (h1, ls1)) →
  reconcile' serial' ds h1 ls1 = (Ok [], (h1, ls1)).
Proof.
  intros Hv Hr. apply reconcile_fixpoint.
  - apply reconcile_Ok in Hr as (ls' & Hp & _). by eapply pass_Ok_typed.
  - by eapply reconcile_settled.
  - intros Hne l Hl. apply reconcile_Ok in Hr as (ls' & _ & -> & _).
    by eapply prune_index_in.
Qed.

Lemma reconcile_valid serial ds h ls r h1 ls1 :
  valid h ls →
  reconcile' serial ds h ls = (r, (h1, ls1)) →
  valid h1 ls1.
Proof.
  intros Hv. unfold reconcile.
  destruct (pass' serial ds (mark' h ls) ls [] []) as [r' [h' ls']] eqn:Hp.
  destruct (pass_settled _ _ _ _ _ _ _ (mark_settled h ls Hv) Hp) as (p & Hs & Hds).
  destruct r' as [[cur new]|e].
  - intros [= <- <- <-].
    pose proof (pass_shape _ _ _ _ _ _ _ Hp) as (-> & _).
    rewrite Hds in Hs by done. by apply settled_prune in Hs as [? _].
  - intros [= <- <- <-]. by destruct Hs.
Qed.

(** The loop returns whenever every index can be compared and the device
    serial is stored. *)
Lemma reconcile_returns (s : value) (ds : list descriptor) (h : list E)
    (ls : list loc) :
  Forall (λ d, index_typed' d = true) ds →
  returns (fst (reconcile' (Some s) ds h ls)) = true.
Proof.
  intros Ht. unfold reconcile.
  pose proof (pass_returns s ds (mark' h ls) ls [] [] Ht) as Hr.
  destruct (pass' (Some s) ds (mark' h ls) ls [] []) as [[[cur new]|e] [h' ls']];
    done.
Qed.

(** *** Invariants of the store *)

Lemma Forall_mark (P : E → Prop) (h : list E) (ls : list loc) :
  (∀ e, P (unavailable e)) → Forall P h → Forall P (mark' h ls).
Proof.
  intros Hu. revert h. induction ls as [|l ls IH]; intros h Hh; [done|].
  apply IH. apply Forall_alter; auto.
Qed.

Lemma reconcile_Forall (P : E → Prop) serial ds h ls r h1 ls1 :
  (∀ e, P (unavailable e)) → (∀ d e, P (assign d e)) →
  (∀ i s, P (create i s)) →
  Forall P h →
  reconcile' serial ds h ls = (r, (h1, ls1)) →
  Forall P h1.
Proof.
  intros Hu Ha Hc Hh. unfold reconcile.
  destruct (pass' serial ds (mark' h ls) ls [] []) as [r' [h' ls']] eqn:Hp.
  pose proof (pass_invariant (λ _ h _ _ _, Forall P h)) as Hinv.
  apply Hinv with (p := []) in Hp.
  - destruct r' as [[cur new]|e]; intros [= <- <- <-]; [done|].
    by destruct Hp as (_ & _ & _ & ?).
  - done.
  - intros _ d i l h2 _ _ _ _ _ Hh2. apply Forall_alter; auto.
  - intros _ d i s h2 _ _ _ _ _ Hh2. apply Forall_alter; [|auto].
    apply Forall_app. split; [done|]. by apply Forall_singleton.
  - by apply Forall_mark.
Qed.

Lemma indexes_ext (h h' : list E) (ls : list loc) :
  (∀ l, l ∈ ls → index_of <$> h' !! l = index_of <$> h !! l) →
  indexes' h' ls = indexes' h ls.
Proof.
  intros Hext. unfold indexes. apply list_fmap_ext.
  intros k l Hk. apply Hext. by eapply list_elem_of_lookup_2.
Qed.

Lemma indexes_alter (f : E → E) (h : list E) (ls : list loc) (l : loc) :
  (∀ e, index_of (f e) = index_of e) →
  indexes' (alter f l h) ls = indexes' h ls.
Proof.
  intros Hf. apply indexes_ext. intros l' _.
  rewrite list_lookup_alter. case_decide; [|done]. subst.
  destruct (h !! l'); simpl; [|done]. by rewrite Hf.
Qed.

Lemma indexes_mark (h : list E) (ls ls' : list loc) :
  indexes' (mark' h ls) ls' = indexes' h ls'.
Proof.
  apply indexes_ext. intros l _. rewrite lookup_mark.
  destruct (decide (l ∈ ls)); [|done].
  destruct (h !! l); simpl; [|done]. by rewrite index_unavailable.
Qed.

Lemma lookup_index_None_indexes (h : list E) (ls : list loc) (i : Z) :
  lookup_index' h ls i = None ↔ Some i ∉ indexes' h ls.
Proof.
  rewrite lookup_index_None. unfold indexes. rewrite list_elem_of_fmap. split.
  - intros H (l & Hi & Hl). destruct (h !! l) as [e|] eqn:He; [|done].
    simpl in Hi. injection Hi as ->. by eapply H.
  - intros H l e Hl He <-. apply H. exists l. by rewrite He.
Qed.

Lemma indexes_create (h : list E) (ls : list loc) (i : Z) (s : value) :
  valid h ls →
  indexes' (h ++ [create i s]) (ls ++ [length h]) = indexes' h ls ++ [Some i].
Proof.
  intros Hv. unfold indexes at 1. rewrite fmap_app. simpl.
  rewrite lookup_app_r, Nat.sub_diag by lia. simpl. rewrite index_create.
  f_equal. apply indexes_ext. intros l Hl.
  rewrite lookup_app_l; [done|]. by eapply valid_elem.
Qed.

(** The loop keeps the indexes of the retained entities distinct, and the
    entities it creates carry seen indexes. *)
Lemma pass_distinct serial ds h0 ls0 r h' ls' :
  distinct' h0 ls0 →
  pass' serial ds h0 ls0 [] [] = (r, (h', ls')) →
  distinct' h' ls' ∧
  match r with
  | Ok (cur, new) => ∀ l, l ∈ new → index_in' h' cur l = true
  | Raise _ => True
  end.
Proof.
  intros H0 Hp.
  pose proof (pass_invariant (λ _ h ls cur new,
    distinct' h ls ∧ ∀ l, l ∈ new → index_in' h cur l = true)) as Hinv.
  apply Hinv with (p := []) in Hp.
  - destruct r as [[cur new]|e]; [done|]. by destruct Hp as (_ & _ & _ & ? & _).
  - done.
  - intros _ d i l h ls cur new _ Hl [[Hv Hnd] Hnew]. split; [split|].
    + unfold valid. by rewrite length_alter.
    + by rewrite indexes_alter by apply index_assign.
    + intros l' Hl'. apply index_in_true.
      destruct (proj1 (index_in_true _ _ _) (Hnew l' Hl')) as (e & He & Hin).
      rewrite list_lookup_alter. case_decide; subst.
      * rewrite He. simpl. eexists. split; [done|].
        rewrite index_assign. apply elem_of_app. by left.
      * exists e. split; [done|]. apply elem_of_app. by left.
  - intros _ d i s h ls cur new _ Hl [[Hv Hnd] Hnew].
    assert (alter (assign d) (length h) (h ++ [create i s]) !! length h
            = Some (assign d (create i s))) as Hcell.
    { rewrite list_lookup_alter_eq, lookup_app_r, Nat.sub_diag by lia. done. }
    split; [split|].
    + unfold valid. rewrite length_alter, length_app. simpl.
      apply Forall_app. split.
      * eapply Forall_impl; [exact Hv|]. simpl. lia.
      * apply Forall_singleton. lia.
    + rewrite indexes_alter by apply index_assign.
      rewrite indexes_create by done.
      apply NoDup_app. split_and!; [done| |apply NoDup_singleton].
      intros x Hx Hx'. apply list_elem_of_singleton in Hx' as ->.
      by apply lookup_index_None_indexes in Hl.
    + intros l' [Hl'|Hl']%elem_of_app; apply index_in_true.
      * destruct (proj1 (index_in_true _ _ _) (Hnew l' Hl')) as (e & He & Hin).
        pose proof (lookup_lt_Some _ _ _ He) as Hlt.
        rewrite list_lookup_alter_ne, lookup_app_l by lia.
        exists e. split; [done|]. apply elem_of_app. by left.
      * apply list_elem_of_singleton in Hl' as ->. rewrite Hcell.
        eexists. split; [done|]. rewrite index_assign, index_create.
        apply elem_of_app. right. left.
  - split; [done|]. intros l Hl. by apply elem_of_nil in Hl.
Qed.

Lemma distinct_prune (h : list E) (cur : list Z) (ls : list loc) :
  distinct' h ls → distinct' h (prune' h cur ls).
Proof.
  intros [Hv Hnd]. unfold prune. destruct (0 <? length cur)%nat; [|done]. split.
  - unfold valid in *. rewrite Forall_forall in *. intros l Hl.
    apply list_elem_of_filter in Hl as [_ Hl]. by apply Hv.
  - eapply sublist_NoDup; [exact Hnd|].
    unfold indexes. apply fmap_sublist, sublist_filter.
Qed.

Lemma reconcile_distinct serial ds h ls r h1 ls1 :
  distinct' h ls →
  reconcile' serial ds h ls = (r, (h1, ls1)) →
  distinct' h1 ls1.
Proof.
  intros [Hv Hnd]. unfold reconcile.
  destruct (pass' serial ds (mark' h ls) ls [] []) as [r' [h' ls']] eqn:Hp.
  apply pass_distinct in Hp as [Hd _].
  2:{ split; [by apply valid_mark|by rewrite indexes_mark]. }
  destruct r' as [[cur new]|e]; intros [= <- <- <-]; [|done].
  by apply distinct_prune.
Qed.

(** A field that neither the mark loop nor the assignments write keeps its
    value in every cell that existed before. *)
Lemma reconcile_preserved {A : Type} (f : E → A) serial ds h ls r h1 ls1 :
  (∀ e, f (unavailable e) = f e) → (∀ d e, f (assign d e) = f e) →
  reconcile' serial ds h ls = (r, (h1, ls1)) →
  ∀ l, (l < length h)%nat → f <$> h1 !! l = f <$> h !! l.
Proof.
  intros Hu Ha. unfold reconcile.
  destruct (pass' serial ds (mark' h ls) ls [] []) as [r' [h' ls']] eqn:Hp.
  pose proof (pass_invariant (λ _ h2 _ _ _,
    length h ≤ length h2 ∧
    ∀ l, (l < length h)%nat → f <$> h2 !! l = f <$> h !! l)%nat) as Hinv.
  apply Hinv with (p := []) in Hp.
  - assert (∀ l, (l < length h)%nat → f <$> h' !! l = f <$> h !! l) as Hh'.
    { destruct r' as [[cur new]|e]; [by destruct Hp|].
      by destruct Hp as (_ & _ & _ & _ & ?). }
    destruct r' as [[cur new]|e]; by intros [= <- <- <-].
  - done.
  - intros _ d i l h2 _ _ _ _ _ [Hlen Hh2]. split; [by rewrite length_alter|].
    intros l' Hl'. rewrite <- Hh2 by done.
    rewrite list_lookup_alter. case_decide; [|done]. subst.
    destruct (h2 !! l'); simpl; [|done]. by rewrite Ha.
  - intros _ d i s h2 _ _ _ _ _ [Hlen Hh2]. split.
    + rewrite length_alter, length_app. lia.
    + intros l' Hl'. rewrite <- Hh2 by done.
      rewrite list_lookup_alter_ne by lia. by rewrite lookup_app_l by lia.
  - split; [by rewrite length_mark|]. intros l Hl. rewrite lookup_mark.
    destruct (decide (l ∈ ls)); [|done].
    destruct (h !! l); simpl; [|done]. by rewrite Hu.
Qed.

(** The delta of a reconciliation that returned: the cells allocated by it,
    each carrying a seen index that no entity retained before carried. *)
Lemma reconcile_new serial ds h ls new h1 ls1 :
  distinct' h ls →
  reconcile' serial ds h ls = (Ok new, (h1, ls1)) →
  new = seq (length h) (length new) ∧
  length h1 = (length h + length new)%nat ∧
  NoDup (indexes' h1 (ls ++ new)) ∧
  ∀ l, l ∈ new → index_in' h1 (seen' ds) l = true.
Proof.
  intros [Hv Hnd] Hr. apply reconcile_Ok in Hr as (ls' & Hp & _ & ->).
  pose proof (pass_shape _ _ _ _ _ _ _ Hp) as (_ & _ & Hnew & Hlen & _).
  rewrite length_mark in Hnew, Hlen.
  apply pass_distinct in Hp as [[_ Hd] Hin].
  2:{ split; [by apply valid_mark|by rewrite indexes_mark]. }
  done.
Qed.

Lemma pass_skipped serial ds h ls cur new :
  Forall (λ d, index_skipped' d = true) ds →
  pass' serial ds h ls cur new = (Ok (cur, new), (h, ls)).
Proof.
  induction 1 as [|d ds Hd _ IH]; [done|]. simpl.
  unfold index_skipped in Hd. destruct (as_int _) as [i|]; [|done].
  by rewrite Hd.
Qed.

Lemma reconcile_skipped serial ds h ls :
  Forall (λ d, index_skipped' d = true) ds →
  reconcile' serial ds h ls = (Ok [], (mark' h ls, ls)).
Proof. intros Hs. unfold reconcile. by rewrite pass_skipped. Qed.

(** After the mark loop alone, the retained entities are the former ones,
    each made unavailable. *)
Lemma retained_mark (h : list E) (ls : list loc) :
  omap (λ l : loc, mark' h ls !! l) ls =
    unavailable <$> omap (λ l : loc, h !! l) ls.
Proof.
  assert (∀ ls' : list loc, (∀ l, l ∈ ls' → l ∈ ls) →
    omap (λ l : loc, mark' h ls !! l) ls' =
      unavailable <$> omap (λ l : loc, h !! l) ls') as Hgen.
  { induction ls' as [|a ls' IH]; intros Hsub; [done|]. csimpl.
    rewrite lookup_mark, decide_True by (apply Hsub; left).
    rewrite IH by (intros l Hl; apply Hsub; by right).
    by destruct (h !! a). }
  by apply Hgen.
Qed.

Lemma forallb_Forall {A : Type} (f : A → bool) (l : list A) :
  forallb f l = true → Forall (λ x, f x = true) l.
Proof.
  induction l as [|a l IH]; simpl; [done|].
  intros [Ha Hl]%andb_prop. constructor; auto.
Qed.

(** No entity is created without an index being recorded. *)
Lemma reconcile_no_index serial ds h ls new h1 ls1 :
  reconcile' serial ds h ls = (Ok new, (h1, ls1)) →
  seen' ds = [] → new = [].
Proof.
  intros (ls' & Hp & _)%reconcile_Ok Hs.
  pose proof (pass_invariant (λ _ _ _ cur new,
    length new ≤ length cur)%nat) as Hinv.
  apply Hinv with (p := []) in Hp; simpl; try done.
  - simpl in Hp. rewrite Hs in Hp. destruct new; [done|simpl in Hp; lia].
  - intros p d i l h' ls0 cur new' _ _ Hle. rewrite length_app. lia.
  - intros p d i s h' ls0 cur new' _ _ Hle. rewrite !length_app. simpl. lia.
Qed.

(** The loop returns, with or without a device serial, when every index can
    be compared and every recorded index is retained already. *)
Lemma reconcile_found serial ds h ls :
  Forall (λ d, index_typed' d = true) ds →
  (∀ i, i ∈ seen' ds → is_Some (lookup_index' h ls i)) →
  ∃ h1 ls1, reconcile' serial ds h ls = (Ok [], (h1, ls1)).
Proof.
  intros Ht Hf. unfold reconcile. rewrite pass_replay; [eauto|done|].
  intros i Hi. rewrite lookup_index_mark. by apply Hf.
Qed.

(** With every reference valid, the indexes of the collection are those of
    the retained entities. *)
Lemma indexes_retained (h : list E) (ls : list loc) :
  valid h ls →
  indexes' h ls = Some <$> (index_of <$> omap (λ l : loc, h !! l) ls).
Proof.
  unfold valid, indexes. induction 1 as [|l ls Hl _ IH]; [done|]. csimpl.
  apply lookup_lt_is_Some_2 in Hl as [e He]. rewrite He. csimpl.
  by rewrite IH.
Qed.

Lemma distinct_retained (h : list E) (ls : list loc) :
  distinct' h ls → NoDup (index_of <$> omap (λ l : loc, h !! l) ls).
Proof.
  intros [Hv Hnd]. rewrite indexes_retained in Hnd by done.
  by apply NoDup_fmap_1 in Hnd.
Qed.

Lemma reconcile_nil serial h ls :
  reconcile' serial [] h ls = (Ok [], (mark' h ls, ls)).
Proof. done. Qed.
(** *** The last descriptor of an index decides, and decides one entity *)

Lemma reconcile_last_wins serial ds h ls new h1 ls1 i d :
  valid h ls →
  reconcile' serial ds h ls = (Ok new, (h1, ls1)) →
  last_with' i ds = Some d →
  ∃ l e, lookup_index' h1 ls1 i = Some l ∧ l ∈ ls1 ∧
         h1 !! l = Some e ∧ index_of e = i ∧ assign d e = e.
Proof.
  intros Hv Hr Hd.
  destruct (reconcile_settled _ _ _ _ _ _ _ Hv Hr) as (_ & Hs & Hf).
  destruct (Hs i) as [l Hl]; [apply last_with_is_Some; eauto|].
  destruct (lookup_index_Some _ _ _ _ Hl) as (Hin & e & He & Hi).
  exists l, e. split_and!; try done.
  specialize (Hf l e Hin He). unfold target in Hf.
  by rewrite Hi, Hl, decide_True, Hd in Hf.
Qed.

Lemma distinct_same_index (h : list E) (ls : list loc) (l l' : loc) (e e' : E) :
  distinct' h ls → l ∈ ls → l' ∈ ls →
  h !! l = Some e → h !! l' = Some e' → index_of e = index_of e' → l = l'.
Proof.
  intros [_ Hnd]. unfold indexes in Hnd. revert Hnd.
  induction ls as [|a ls IH]; intros Hnd Hl Hl' He He' Hi.
  - by apply elem_of_nil in Hl.
  - rewrite fmap_cons in Hnd. apply NoDup_cons in Hnd as [Ha Hnd].
    assert (∀ x ex ea, x ∈ ls → h !! x = Some ex → h !! a = Some ea →
              index_of ex = index_of ea → False) as Hno.
    { intros x ex ea Hx Hex Hea Hidx. apply Ha.
      apply list_elem_of_fmap. exists x. split; [|done].
      rewrite Hex, Hea. simpl. by rewrite Hidx. }
    apply elem_of_cons in Hl as [->|Hl]; apply elem_of_cons in Hl' as [->|Hl'].
    + done.
    + exfalso. by eapply (Hno l' e' e).
    + exfalso. by eapply (Hno l e e').
    + by apply IH.
Qed.

(** A snapshot that brings one index the collection does not hold creates
    one entity, at the next cell of the store. *)
Lemma reconcile_single_new serial ds h ls new h1 ls1 i :
  distinct' h ls →
  reconcile' serial ds h ls = (Ok new, (h1, ls1)) →
  i ∈ seen' ds → Some i ∉ indexes' h ls →
  (∀ j, j ∈ seen' ds → j = i ∨ Some j ∈ indexes' h ls) →
  new = [length h] ∧ index_of <$> h1 !! length h = Some i.
Proof.
  intros Hd Hr Hi Hfresh Hall.
  pose proof Hd as [Hv _].
  destruct (reconcile_new _ _ _ _ _ _ _ Hd Hr) as (Hseq & Hlen & Hnd & Hin).
  assert (indexes' h1 ls = indexes' h ls) as Hold.
  { apply indexes_ext. intros l Hl.
    eapply (reconcile_preserved index_of); eauto using valid_elem. }
  unfold indexes in Hnd. rewrite fmap_app in Hnd.
  fold (indexes' h1 ls) in Hnd. fold (indexes' h1 new) in Hnd.
  rewrite Hold in Hnd. apply NoDup_app in Hnd as (_ & Hdisj & Hndn).
  assert (∀ l, l ∈ new → index_of <$> h1 !! l = Some i) as Hnewi.
  { intros l Hl. destruct (proj1 (index_in_true _ _ _) (Hin l Hl))
      as (e & He & Hse).
    rewrite He. simpl. f_equal.
    destruct (Hall _ Hse) as [?|Hc]; [done|]. exfalso.
    apply (Hdisj _ Hc). apply list_elem_of_fmap. exists l.
    by rewrite He. }
  assert (∃ l, l ∈ new) as [l Hl].
  { apply last_with_is_Some in Hi as [d Hdl].
    destruct (reconcile_last_wins _ _ _ _ _ _ _ _ _ Hv Hr Hdl)
      as (l & e & _ & Hl1 & He & Hie & _).
    apply reconcile_Ok in Hr as (ls' & _ & -> & ->).
    assert (l ∈ ls ++ new) as [Hl|Hl]%elem_of_app; [| |by exists l].
    { unfold prune in Hl1. destruct (0 <? _)%nat; [|done].
      by apply list_elem_of_filter in Hl1 as [_ ?]. }
    exfalso. apply Hfresh. rewrite <- Hold. apply list_elem_of_fmap.
    exists l. by rewrite He, <- Hie. }
  destruct new as [|a [|b new]].
  - by apply elem_of_nil in Hl.
  - simpl in Hseq. injection Hseq as ->. split; [done|].
    apply Hnewi. left.
  - exfalso. unfold indexes in Hndn. rewrite !fmap_cons in Hndn.
    rewrite (Hnewi a), (Hnewi b) in Hndn by (try left; right; left).
    apply NoDup_cons in Hndn as [Hab _]. apply Hab. left.
Qed.
(** *** A reconciliation that raises *)

Lemma pass_app serial p q h ls cur new :
  pass' serial (p ++ q) h ls cur new =
    match pass' serial p h ls cur new with
    | (Ok (cur', new'), (h', ls')) => pass' serial q h' ls' cur' new'
    | (Raise e, hl) => (Raise e, hl)
    end.
Proof.
  revert h ls cur new. induction p as [|d p IH]; intros h ls cur new; [done|].
  simpl. destruct (as_int _) as [i|]; [|done].
  destruct (i <? 0)%Z; [apply IH|].
  destruct (lookup_index' h ls i); [apply IH|].
  destruct serial; [apply IH|done].
Qed.

(** The loop raises at one descriptor, after the descriptors before it have
    been processed; the store and the collection are left as they were
    when that descriptor was reached. *)
Lemma pass_Raise serial ds h ls cur new e h' ls' :
  pass' serial ds h ls cur new = (Raise e, (h', ls')) →
  ∃ p d rest cur' new',
    ds = p ++ d :: rest ∧
    pass' serial p h ls cur new = (Ok (cur', new'), (h', ls')) ∧
    pass' serial [d] h' ls' cur' new' = (Raise e, (h', ls')).
Proof.
  revert h ls cur new. induction ds as [|d ds IH]; intros h ls cur new Hp;
    [done|].
  assert (∀ h2 ls2 cur2 new2,
    pass' serial [d] h ls cur new = (Ok (cur2, new2), (h2, ls2)) →
    pass' serial ds h2 ls2 cur2 new2 = (Raise e, (h', ls')) →
    ∃ p d0 rest cur' new',
      d :: ds = p ++ d0 :: rest ∧
      pass' serial p h ls cur new = (Ok (cur', new'), (h', ls')) ∧
      pass' serial [d0] h' ls' cur' new' = (Raise e, (h', ls'))) as Hstep.
  { intros h2 ls2 cur2 new2 H1 H2.
    destruct (IH _ _ _ _ H2) as (p & d0 & rest & cur' & new' & -> & Hp1 & Hp2).
    exists (d :: p), d0, rest, cur', new'. split_and!; [done| |done].
    change (d :: p) with ([d] ++ p). by rewrite pass_app, H1. }
  simpl in Hp, Hstep.
  destruct (as_int (get_default d key_index (VInt (-1)))) as [i|] eqn:Hi.
  2:{ injection Hp as <- <- <-. exists [], d, ds, cur, new.
      split_and!; [done..|]. simpl. by rewrite Hi. }
  destruct (i <? 0)%Z eqn:Hneg; [by eapply Hstep|].
  destruct (lookup_index' h ls i) as [l|] eqn:Hl; [by eapply Hstep|].
  destruct serial as [s|]; [by eapply Hstep|].
  injection Hp as <- <- <-. exists [], d, ds, cur, new.
  split_and!; [done..|]. simpl. by rewrite Hi, Hneg, Hl.
Qed.

Lemma pass_single_Raise serial d h ls cur new cur' new' e hl :
  pass' serial [d] h ls cur new = (Raise e, hl) →
  pass' serial [d] h ls cur' new' = (Raise e, hl).
Proof.
  simpl. destruct (as_int _) as [i|]; [|done].
  destruct (i <? 0)%Z; [done|].
  destruct (lookup_index' h ls i); [done|].
  by destruct serial.
Qed.

(** A reconciliation that raised raises again, the same exception, and
    leaves the store and the collection as the first attempt left them. *)
Lemma reconcile_Raise_again serial ds h ls e h1 ls1 :
  valid h ls →
  reconcile' serial ds h ls = (Raise e, (h1, ls1)) →
  reconcile' serial ds h1 ls1 = (Raise e, (h1, ls1)).
Proof.
  intros Hv. unfold reconcile.
  destruct (pass' serial ds (mark' h ls) ls [] []) as [[[cur new]|e'] [h' ls']]
    eqn:Hp; [done|].
  intros [= -> -> ->].
  apply pass_Raise in Hp as (p & d & rest & cur' & new' & -> & Hp1 & Hp2).
  destruct (pass_settled _ _ _ _ _ _ _ (mark_settled h ls Hv) Hp1)
    as (p' & Hs & Hp'). rewrite Hp' in Hs by done.
  rewrite pass_app, pass_replay.
  - rewrite (replay_mark_settled _ _ _ Hs).
    change (d :: rest) with ([d] ++ rest).
    by rewrite pass_app, (pass_single_Raise _ _ _ _ _ _ _ _ _ _ Hp2).
  - by eapply pass_Ok_typed.
  - intros i Hi. rewrite lookup_index_mark. destruct Hs as (_ & Hs & _).
    by apply Hs.
Qed.
End EngineFacts.

(** * Properties of the facade *)

(** ** The entity classes obey the laws the engine asks for *)

Ltac entity_law := intros; reflexivity.

Section FacadeFacts.
Variable K : Const.

Lemma with_outputs_same (w : WebioAPI) :
  with_outputs (outputs w) (output_store w) w = w.
Proof. by destruct w. Qed.

Lemma with_zones_same (w : WebioAPI) :
  with_zones (zones w) (zone_store w) w = w.
Proof. by destruct w. Qed.

(** ** The source functions are the engine's instances *)

Lemma outputs_loop_pass (os : list descriptor) (w : WebioAPI)
    (cur : list Z) (new : list loc) :
  outputs_loop K os w cur new =
    let r := pass Output.index (λ i s, Output.init i s None) (output_assign K)
               (KEY_INDEX K) (_info w !! KEY_DEVICE_SERIAL K) os
               (output_store w) (outputs w) cur new in
    (fst r, with_outputs (snd (snd r)) (fst (snd r)) w).
Proof.
  revert w cur new. induction os as [|o os IH]; intros w cur new.
  - simpl. by rewrite with_outputs_same.
  - simpl.
    destruct (as_int (get_default o (KEY_INDEX K) (VInt (-1)))) as [i|].
    2:{ simpl. by rewrite with_outputs_same. }
    destruct (i <? 0)%Z; [apply IH|].
    unfold _get_output.
    change (List.find (output_has_index (output_store w) i) (outputs w))
      with (lookup_index Output.index (output_store w) (outputs w) i).
    destruct (lookup_index Output.index (output_store w) (outputs w) i) as [l|].
    { rewrite IH. done. }
    destruct (_info w !! KEY_DEVICE_SERIAL K) as [s|] eqn:Hs.
    2:{ simpl. by rewrite with_outputs_same. }
    rewrite IH. simpl. by rewrite Hs.
Qed.

Lemma update_outputs_reconcile (os : list descriptor) (w : WebioAPI) :
  _update_outputs K os w =
    let r := reconcile_outputs K (_info w !! KEY_DEVICE_SERIAL K) os
               (output_store w) (outputs w) in
    (fst r, with_outputs (snd (snd r)) (fst (snd r)) w).
Proof.
  unfold _update_outputs, reconcile_outputs, reconcile.
  rewrite outputs_loop_pass. unfold mark_outputs. simpl.
  change (foldl (λ h out, alter output_unavailable out h) (output_store w)
            (outputs w))
    with (mark output_unavailable (output_store w) (outputs w)).
  destruct (pass _ _ _ _ _ _ _ _ _ _) as [[[cur new]|e] [h ls]]; simpl; [|done].
  unfold prune. by destruct (0 <? length cur)%nat.
Qed.

Lemma zones_loop_pass (zs : list descriptor) (w : WebioAPI)
    (cur : list Z) (new : list loc) :
  zones_loop K zs w cur new =
    let r := pass Zone.index (λ i s, Zone.init i s None) (zone_assign K)
               (KEY_INDEX K) (_info w !! KEY_DEVICE_SERIAL K) zs
               (zone_store w) (zones w) cur new in
    (fst r, with_zones (snd (snd r)) (fst (snd r)) w).
Proof.
  revert w cur new. induction zs as [|z zs IH]; intros w cur new.
  - simpl. by rewrite with_zones_same.
  - simpl.
    destruct (as_int (get_default z (KEY_INDEX K) (VInt (-1)))) as [i|].
    2:{ simpl. by rewrite with_zones_same. }
    destruct (i <? 0)%Z; [apply IH|].
    unfold _get_zone.
    change (List.find (zone_has_index (zone_store w) i) (zones w))
      with (lookup_index Zone.index (zone_store w) (zones w) i).
    destruct (lookup_index Zone.index (zone_store w) (zones w) i) as [l|].
    { rewrite IH. done. }
    destruct (_info w !! KEY_DEVICE_SERIAL K) as [s|] eqn:Hs.
    2:{ simpl. by rewrite with_zones_same. }
    rewrite IH. simpl. by rewrite Hs.
Qed.

Lemma update_zones_reconcile (zs : list descriptor) (w : WebioAPI) :
  _update_zones K zs w =
    let r := reconcile_zones K (_info w !! KEY_DEVICE_SERIAL K) zs
               (zone_store w) (zones w) in
    (fst r, with_zones (snd (snd r)) (fst (snd r)) w).
Proof.
  unfold _update_zones, reconcile_zones, reconcile.
  rewrite zones_loop_pass. unfold mark_zones. simpl.
  change (foldl (λ h zone, alter zone_unavailable zone h) (zone_store w)
            (zones w))
    with (mark zone_unavailable (zone_store w) (zones w)).
  destruct (pass _ _ _ _ _ _ _ _ _ _) as [[[cur new]|e] [h ls]]; simpl; [|done].
  unfold prune. by destruct (0 <? length cur)%nat.
Qed.

(** Handy forms of the two equations. *)
Lemma update_outputs_inv os w r w' :
  _update_outputs K os w = (r, w') →
  ∃ h ls, reconcile_outputs K (_info w !! KEY_DEVICE_SERIAL K) os
            (output_store w) (outputs w) = (r, (h, ls))
          ∧ w' = with_outputs ls h w.
Proof.
  rewrite update_outputs_reconcile.
  destruct (reconcile_outputs _ _ _ _ _) as [r0 [h ls]]. simpl.
  intros [= <- <-]. eauto.
Qed.

Lemma update_zones_inv zs w r w' :
  _update_zones K zs w = (r, w') →
  ∃ h ls, reconcile_zones K (_info w !! KEY_DEVICE_SERIAL K) zs
            (zone_store w) (zones w) = (r, (h, ls))
          ∧ w' = with_zones ls h w.
Proof.
  rewrite update_zones_reconcile.
  destruct (reconcile_zones _ _ _ _ _) as [r0 [h ls]]. simpl.
  intros [= <- <-]. eauto.
Qed.

(** [update_device_status], one category after the other. *)
Lemma update_device_status_inv new_status w r w' :
  update_device_status K new_status w = (r, w') →
  ∃ r1 w1,
    match new_status !! KEY_OUTPUTS K with
    | None => (Ok [], w)
    | Some os => _update_outputs K os w
    end = (r1, w1) ∧
    match r1 with
    | Raise e => r = Raise e ∧ w' = w1
    | Ok new_outputs =>
        ∃ r2,
          match new_status !! KEY_ZONES K with
          | None => (Ok [], w1)
          | Some zs => _update_zones K zs w1
          end = (r2, w') ∧
          r = match r2 with
              | Raise e => Raise e
              | Ok new_zones => Ok (new_outputs, new_zones)
              end
    end.
Proof.
  unfold update_device_status.
  destruct (match new_status !! KEY_OUTPUTS K with
            | None => (Ok [], w)
            | Some os => _update_outputs K os w
            end) as [[no|e] w1].
  - destruct (match new_status !! KEY_ZONES K with
              | None => (Ok [], w1)
              | Some zs => _update_zones K zs w1
              end) as [[nz|e] w2] eqn:Hz; intros [= <- <-];
      exists (Ok no), w1; (split; [done|]); eexists; by rewrite Hz.
  - intros [= <- <-]. by exists (Raise e), w1.
Qed.

(** ** Frames: a category's reconciliation leaves the other category and
    the device info alone *)

Lemma update_outputs_frame os w r w' :
  _update_outputs K os w = (r, w') →
  _info w' = _info w ∧ zones w' = zones w ∧ zone_store w' = zone_store w.
Proof. intros (h & ls & _ & ->)%update_outputs_inv. done. Qed.

Lemma update_zones_frame zs w r w' :
  _update_zones K zs w = (r, w') →
  _info w' = _info w ∧ outputs w' = outputs w ∧
  output_store w' = output_store w.
Proof. intros (h & ls & _ & ->)%update_zones_inv. done. Qed.

Lemma refresh_device_info_frame info w :
  let w' := snd (refresh_device_info K info w) in
  outputs w' = outputs w ∧ zones w' = zones w ∧
  output_store w' = output_store w ∧ zone_store w' = zone_store w.
Proof.
  unfold refresh_device_info, refresh_try. destruct info as [info|v]; [|done].
  destruct (info !! KEY_WEBIO_SERIAL K) as [[| | |s|]|]; try done.
  by destruct (info !! KEY_WEBIO_NAME K).
Qed.

(** A property of the facade kept by both reconciliations is kept by
    [update_device_status], whether it returns or raises. *)
Lemma update_device_status_preserves (P : WebioAPI → Prop) new_status w :
  (∀ os w r w', P w → _update_outputs K os w = (r, w') → P w') →
  (∀ zs w r w', P w → _update_zones K zs w = (r, w') → P w') →
  P w → P (snd (update_device_status K new_status w)).
Proof.
  intros Ho Hz Hw.
  destruct (update_device_status K new_status w) as [r w'] eqn:Hu. simpl.
  apply update_device_status_inv in Hu as (r1 & w1 & H1 & H2).
  assert (P w1) as Hw1.
  { destruct (new_status !! KEY_OUTPUTS K) as [os|].
    - by eapply Ho.
    - by injection H1 as <- <-. }
  destruct r1 as [no|e].
  - destruct H2 as (r2 & H2 & _).
    destruct (new_status !! KEY_ZONES K) as [zs|].
    + by eapply Hz.
    + by injection H2 as <- <-.
  - by destruct H2 as [_ ->].
Qed.

(** ** The three conditions on a facade are invariants *)

Lemma update_device_status_wf new_status w :
  wf w → wf (snd (update_device_status K new_status w)).
Proof.
  apply update_device_status_preserves.
  - intros os w0 r w' [Ho Hz] (h & ls & Hr & ->)%update_outputs_inv.
    split; [|done]. simpl. unfold reconcile_outputs in Hr.
    eapply reconcile_valid in Hr; try done; entity_law.
  - intros zs w0 r w' [Ho Hz] (h & ls & Hr & ->)%update_zones_inv.
    split; [done|]. simpl. unfold reconcile_zones in Hr.
    eapply reconcile_valid in Hr; try done; entity_law.
Qed.

Lemma update_device_status_unique new_status w :
  unique_indexes w →
  unique_indexes (snd (update_device_status K new_status w)).
Proof.
  apply update_device_status_preserves.
  - intros os w0 r w' [Ho Hz] (h & ls & Hr & ->)%update_outputs_inv.
    split; [|done]. simpl. unfold reconcile_outputs in Hr.
    eapply reconcile_distinct in Hr; try done; entity_law.
  - intros zs w0 r w' [Ho Hz] (h & ls & Hr & ->)%update_zones_inv.
    split; [done|]. simpl. unfold reconcile_zones in Hr.
    eapply reconcile_distinct in Hr; try done; entity_law.
Qed.

Lemma output_unavailable_consistent o :
  Output.consistent (output_unavailable o).
Proof. done. Qed.

Lemma output_assign_consistent d o : Output.consistent (output_assign K d o).
Proof. done. Qed.

Lemma zone_unavailable_consistent z : Zone.consistent (zone_unavailable z).
Proof. done. Qed.

Lemma zone_assign_consistent d z : Zone.consistent (zone_assign K d z).
Proof. done. Qed.

Lemma update_device_status_consistent new_status w :
  consistent w → consistent (snd (update_device_status K new_status w)).
Proof.
  apply update_device_status_preserves.
  - intros os w0 r w' [Ho Hz] (h & ls & Hr & ->)%update_outputs_inv.
    split; [|done]. simpl. unfold reconcile_outputs in Hr.
    eapply (reconcile_Forall _ _ _ _ _ Output.consistent) in Hr; done.
  - intros zs w0 r w' [Ho Hz] (h & ls & Hr & ->)%update_zones_inv.
    split; [done|]. simpl. unfold reconcile_zones in Hr.
    eapply (reconcile_Forall _ _ _ _ _ Zone.consistent) in Hr; done.
Qed.

Lemma do_call_invariants c w :
  (wf w → wf (do_call K c w)) ∧
  (unique_indexes w → unique_indexes (do_call K c w)) ∧
  (consistent w → consistent (do_call K c w)).
Proof.
  destruct c as [info|s]; simpl.
  - destruct (refresh_device_info_frame info w) as (Ho & Hz & Hoh & Hzh).
    unfold wf, unique_indexes, consistent. by rewrite Ho, Hz, Hoh, Hzh.
  - split_and!.
    + apply update_device_status_wf.
    + apply update_device_status_unique.
    + apply update_device_status_consistent.
Qed.

Lemma run_invariants cs w :
  (wf w → wf (run K cs w)) ∧
  (unique_indexes w → unique_indexes (run K cs w)) ∧
  (consistent w → consistent (run K cs w)).
Proof.
  revert w. induction cs as [|c cs IH]; intros w; [done|].
  unfold run in *. simpl.
  destruct (do_call_invariants c w) as (H1 & H2 & H3).
  destruct (IH (do_call K c w)) as (I1 & I2 & I3). auto.
Qed.

Lemma init_invariants : wf init ∧ unique_indexes init ∧ consistent init.
Proof.
  unfold wf, unique_indexes, consistent, distinct, valid. simpl.
  split_and!; try done; apply NoDup_nil_2.
Qed.

Lemma unique_indexes_wf w : unique_indexes w → wf w.
Proof. by intros [[? _] [? _]]. Qed.

Lemma retained_Forall {A : Type} (P : A → Prop) (h : list A) (ls : list loc) :
  Forall P h → Forall P (omap (λ l, h !! l) ls).
Proof.
  intros Hh. apply Forall_forall. intros x Hx.
  apply list_elem_of_omap in Hx as (l & _ & Hl).
  rewrite Forall_forall in Hh. apply Hh. by eapply list_elem_of_lookup_2.
Qed.

(** ** Returning normally *)

Lemma update_outputs_returns os w s :
  _info w !! KEY_DEVICE_SERIAL K = Some s →
  Forall (λ d, index_typed (KEY_INDEX K) d = true) os →
  ∃ new w', _update_outputs K os w = (Ok new, w').
Proof.
  intros Hs Ht. rewrite update_outputs_reconcile, Hs.
  pose proof (reconcile_returns Output.index output_unavailable
    (λ i s, Output.init i s None) (output_assign K) (KEY_INDEX K)
    s os (output_store w) (outputs w) Ht) as Hr.
  unfold reconcile_outputs.
  destruct (reconcile _ _ _ _ _ _ _ _ _) as [[new|e] [h ls]]; [|done].
  simpl. eauto.
Qed.

Lemma update_zones_returns zs w s :
  _info w !! KEY_DEVICE_SERIAL K = Some s →
  Forall (λ d, index_typed (KEY_INDEX K) d = true) zs →
  ∃ new w', _update_zones K zs w = (Ok new, w').
Proof.
  intros Hs Ht. rewrite update_zones_reconcile, Hs.
  pose proof (reconcile_returns Zone.index zone_unavailable
    (λ i s, Zone.init i s None) (zone_assign K) (KEY_INDEX K)
    s zs (zone_store w) (zones w) Ht) as Hr.
  unfold reconcile_zones.
  destruct (reconcile _ _ _ _ _ _ _ _ _) as [[new|e] [h ls]]; [|done].
  simpl. eauto.
Qed.

Lemma update_outputs_skipped os w :
  Forall (λ d, index_skipped (KEY_INDEX K) d = true) os →
  _update_outputs K os w = (Ok [], mark_outputs w).
Proof.
  intros Hs. rewrite update_outputs_reconcile. unfold reconcile_outputs.
  by rewrite reconcile_skipped.
Qed.

Lemma update_zones_skipped zs w :
  Forall (λ d, index_skipped (KEY_INDEX K) d = true) zs →
  _update_zones K zs w = (Ok [], mark_zones w).
Proof.
  intros Hs. rewrite update_zones_reconcile. unfold reconcile_zones.
  by rewrite reconcile_skipped.
Qed.

Lemma update_outputs_found os w :
  Forall (λ d, index_typed (KEY_INDEX K) d = true) os →
  (∀ i, i ∈ seen (KEY_INDEX K) os → is_Some (_get_output w i)) →
  ∃ w', _update_outputs K os w = (Ok [], w').
Proof.
  intros Ht Hf. rewrite update_outputs_reconcile. unfold reconcile_outputs.
  edestruct (reconcile_found Output.index output_unavailable
    (λ i s, Output.init i s None) (output_assign K) (KEY_INDEX K))
    as (h1 & ls1 & ->); [entity_law..|exact Ht|exact Hf|]. simpl. eauto.
Qed.

Lemma update_zones_found zs w :
  Forall (λ d, index_typed (KEY_INDEX K) d = true) zs →
  (∀ i, i ∈ seen (KEY_INDEX K) zs → is_Some (_get_zone w i)) →
  ∃ w', _update_zones K zs w = (Ok [], w').
Proof.
  intros Ht Hf. rewrite update_zones_reconcile. unfold reconcile_zones.
  edestruct (reconcile_found Zone.index zone_unavailable
    (λ i s, Zone.init i s None) (zone_assign K) (KEY_INDEX K))
    as (h1 & ls1 & ->); [entity_law..|exact Ht|exact Hf|]. simpl. eauto.
Qed.

Lemma update_device_status_found_returns new_status w :
  snapshot_typed K new_status = true →
  (∀ os i, new_status !! KEY_OUTPUTS K = Some os →
           i ∈ seen (KEY_INDEX K) os → is_Some (_get_output w i)) →
  (∀ zs i, new_status !! KEY_ZONES K = Some zs →
           i ∈ seen (KEY_INDEX K) zs → is_Some (_get_zone w i)) →
  returns (fst (update_device_status K new_status w)) = true.
Proof.
  intros [Ho Hz]%andb_prop Hfo Hfz.
  unfold update_device_status, category_typed in *.
  assert (∃ w1, match new_status !! KEY_OUTPUTS K with
                | None => (Ok [], w)
                | Some os => _update_outputs K os w
                end = (Ok [], w1) ∧
                zones w1 = zones w ∧ zone_store w1 = zone_store w)
    as (w1 & -> & Hl & Hh).
  { destruct (new_status !! KEY_OUTPUTS K) as [os|]; [|by eauto].
    destruct (update_outputs_found os w (forallb_Forall _ _ Ho)) as (w1 & H1).
    { intros i. by apply Hfo. }
    exists w1. split; [done|].
    by apply update_outputs_frame in H1 as (_ & ? & ?). }
  destruct (new_status !! KEY_ZONES K) as [zs|]; [|done].
  destruct (update_zones_found zs w1 (forallb_Forall _ _ Hz)) as (w2 & ->);
    [|done].
  intros i Hi. unfold _get_zone. rewrite Hl, Hh. by apply (Hfz zs).
Qed.

Lemma update_device_status_typed_returns new_status w s :
  _info w !! KEY_DEVICE_SERIAL K = Some s →
  snapshot_typed K new_status = true →
  returns (fst (update_device_status K new_status w)) = true.
Proof.
  intros Hs [Ho Hz]%andb_prop. unfold update_device_status, category_typed in *.
  assert (∃ no w1, match new_status !! KEY_OUTPUTS K with
                   | None => (Ok [], w)
                   | Some os => _update_outputs K os w
                   end = (Ok no, w1) ∧ _info w1 = _info w)
    as (no & w1 & -> & Hi).
  { destruct (new_status !! KEY_OUTPUTS K) as [os|]; [|by eauto].
    destruct (update_outputs_returns os w s Hs (forallb_Forall _ _ Ho))
      as (no & w1 & H1).
    exists no, w1. split; [done|]. by apply update_outputs_frame in H1 as [? _]. }
  destruct (new_status !! KEY_ZONES K) as [zs|]; [|done].
  rewrite <- Hi in Hs.
  destruct (update_zones_returns zs w1 s Hs (forallb_Forall _ _ Hz))
    as (nz & w2 & ->). done.
Qed.

Lemma update_device_status_skipped_returns new_status w :
  snapshot_skipped K new_status = true →
  returns (fst (update_device_status K new_status w)) = true.
Proof.
  intros [Ho Hz]%andb_prop. unfold update_device_status, category_skipped in *.
  assert (∃ w1, match new_status !! KEY_OUTPUTS K with
                | None => (Ok [], w)
                | Some os => _update_outputs K os w
                end = (Ok [], w1)) as (w1 & ->).
  { destruct (new_status !! KEY_OUTPUTS K) as [os|]; [|by eauto].
    rewrite update_outputs_skipped by by apply forallb_Forall. eauto. }
  destruct (new_status !! KEY_ZONES K) as [zs|]; [|done].
  by rewrite update_zones_skipped by by apply forallb_Forall.
Qed.

Lemma refresh_device_info_returns (info : dict) w :
  ∃ b w', refresh_device_info K (Mapping info) w = (Ok b, w').
Proof.
  unfold refresh_device_info, refresh_try.
  destruct (info !! KEY_WEBIO_SERIAL K) as [[| | |s|]|]; eauto.
  destruct (info !! KEY_WEBIO_NAME K); eauto.
Qed.

Lemma refresh_device_info_not_mapping (v : value) w :
  refresh_device_info K (NotMapping v) w = (Raise TypeError, w).
Proof. done. Qed.

(** ** The prune pass *)

Lemma update_outputs_prune os w new w' :
  _update_outputs K os w = (Ok new, w') →
  outputs w' =
    prune Output.index (output_store w') (seen (KEY_INDEX K) os)
      (outputs w ++ new).
Proof.
  intros (h & ls & Hr & ->)%update_outputs_inv. simpl.
  unfold reconcile_outputs in Hr.
  apply reconcile_Ok in Hr as (ls' & _ & -> & ->); [done|entity_law..].
Qed.

Lemma update_zones_prune zs w new w' :
  _update_zones K zs w = (Ok new, w') →
  zones w' =
    prune Zone.index (zone_store w') (seen (KEY_INDEX K) zs) (zones w ++ new).
Proof.
  intros (h & ls & Hr & ->)%update_zones_inv. simpl.
  unfold reconcile_zones in Hr.
  apply reconcile_Ok in Hr as (ls' & _ & -> & ->); [done|entity_law..].
Qed.

Lemma update_outputs_no_index os w new w' :
  _update_outputs K os w = (Ok new, w') →
  seen (KEY_INDEX K) os = [] → new = [].
Proof.
  intros (h & ls & Hr & ->)%update_outputs_inv Hs.
  unfold reconcile_outputs in Hr. by eapply reconcile_no_index in Hr.
Qed.

Lemma update_zones_no_index zs w new w' :
  _update_zones K zs w = (Ok new, w') →
  seen (KEY_INDEX K) zs = [] → new = [].
Proof.
  intros (h & ls & Hr & ->)%update_zones_inv Hs.
  unfold reconcile_zones in Hr. by eapply reconcile_no_index in Hr.
Qed.

(** ** Reconciling the same snapshot again *)

Lemma update_outputs_again os w r w' w2 :
  valid (output_store w) (outputs w) →
  _update_outputs K os w = (r, w') →
  _info w2 = _info w' → outputs w2 = outputs w' →
  output_store w2 = output_store w' →
  _update_outputs K os w2 =
    (match r with Ok _ => Ok [] | Raise e => Raise e end, w2).
Proof.
  intros Hv (h & ls & Hr & ->)%update_outputs_inv Hi Ho Hh. simpl in *.
  rewrite update_outputs_reconcile, Hi, Ho, Hh. unfold reconcile_outputs in *.
  destruct r as [new|e].
  - erewrite reconcile_idempotent; [|entity_law..|exact Hv|exact Hr].
    simpl. by rewrite <- Ho, <- Hh, with_outputs_same.
  - erewrite reconcile_Raise_again; [|entity_law..|exact Hv|exact Hr].
    simpl. by rewrite <- Ho, <- Hh, with_outputs_same.
Qed.

Lemma update_zones_again zs w r w' w2 :
  valid (zone_store w) (zones w) →
  _update_zones K zs w = (r, w') →
  _info w2 = _info w' → zones w2 = zones w' →
  zone_store w2 = zone_store w' →
  _update_zones K zs w2 =
    (match r with Ok _ => Ok [] | Raise e => Raise e end, w2).
Proof.
  intros Hv (h & ls & Hr & ->)%update_zones_inv Hi Ho Hh. simpl in *.
  rewrite update_zones_reconcile, Hi, Ho, Hh. unfold reconcile_zones in *.
  destruct r as [new|e].
  - erewrite reconcile_idempotent; [|entity_law..|exact Hv|exact Hr].
    simpl. by rewrite <- Ho, <- Hh, with_zones_same.
  - erewrite reconcile_Raise_again; [|entity_law..|exact Hv|exact Hr].
    simpl. by rewrite <- Ho, <- Hh, with_zones_same.
Qed.

Lemma update_device_status_again new_status w r w' :
  wf w →
  update_device_status K new_status w = (r, w') →
  update_device_status K new_status w' =
    (match r with Ok _ => Ok ([], []) | Raise e => Raise e end, w').
Proof.
  intros [Hvo Hvz] Hu.
  apply update_device_status_inv in Hu as (r1 & w1 & H1 & H2).
  unfold update_device_status.
  destruct r1 as [no|e].
  2:{ destruct H2 as [-> ->].
      destruct (new_status !! KEY_OUTPUTS K) as [os|]; [|done].
      by rewrite (update_outputs_again os w _ w1 w1 Hvo H1). }
  destruct H2 as (r2 & H2 & ->).
  assert (_info w' = _info w1 ∧ outputs w' = outputs w1 ∧
          output_store w' = output_store w1) as (Hi & Ho & Hh).
  { destruct (new_status !! KEY_ZONES K) as [zs|].
    - by eapply update_zones_frame.
    - by injection H2 as <- <-. }
  assert (zones w1 = zones w ∧ zone_store w1 = zone_store w) as [Hz Hzh].
  { destruct (new_status !! KEY_OUTPUTS K) as [os|].
    - by apply update_outputs_frame in H1 as (_ & ? & ?).
    - by injection H1 as <- <-. }
  assert (match new_status !! KEY_OUTPUTS K with
          | None => (Ok [], w')
          | Some os => _update_outputs K os w'
          end = (Ok [], w')) as ->.
  { destruct (new_status !! KEY_OUTPUTS K) as [os|]; [|done].
    by rewrite (update_outputs_again os w _ w1 w' Hvo H1). }
  destruct (new_status !! KEY_ZONES K) as [zs|].
  - rewrite (update_zones_again zs w1 r2 w' w'); try done.
    + by destruct r2.
    + by rewrite Hz, Hzh.
  - injection H2 as <- <-. done.
Qed.

(** ** A category list that is present and empty *)

Lemma update_outputs_nil w : _update_outputs K [] w = (Ok [], mark_outputs w).
Proof. done. Qed.

Lemma update_zones_nil w : _update_zones K [] w = (Ok [], mark_zones w).
Proof. done. Qed.

Lemma retained_outputs_mark w :
  retained_outputs (mark_outputs w) = output_unavailable <$> retained_outputs w.
Proof.
  unfold retained_outputs, mark_outputs. simpl.
  apply (retained_mark output_unavailable). entity_law.
Qed.

Lemma retained_zones_mark w :
  retained_zones (mark_zones w) = zone_unavailable <$> retained_zones w.
Proof.
  unfold retained_zones, mark_zones. simpl.
  apply (retained_mark zone_unavailable). entity_law.
Qed.

(** ** The last descriptor of an index *)

Lemma update_outputs_last_wins os w new w' i d :
  valid (output_store w) (outputs w) →
  _update_outputs K os w = (Ok new, w') →
  last_with (KEY_INDEX K) i os = Some d →
  ∃ l out, _get_output w' i = Some l ∧ l ∈ outputs w' ∧
    output_store w' !! l = Some out ∧ Output.index out = i ∧
    Output.state out = _convert_outputs_status (get d (KEY_STATUS K)) ∧
    Output.available out = is_not_None (Output.state out).
Proof.
  intros Hv (h & ls & Hr & ->)%update_outputs_inv Hd. simpl.
  unfold reconcile_outputs in Hr.
  eapply reconcile_last_wins in Hr as (l & out & Hl & Hin & Ho & Hi & Ha);
    [|entity_law..|done|exact Hd].
  exists l, out. split_and!; try done.
  - by rewrite <- Ha.
  - by rewrite <- Ha.
Qed.

Lemma update_zones_last_wins zs w new w' i d :
  valid (zone_store w) (zones w) →
  _update_zones K zs w = (Ok new, w') →
  last_with (KEY_INDEX K) i zs = Some d →
  ∃ l zone, _get_zone w' i = Some l ∧ l ∈ zones w' ∧
    zone_store w' !! l = Some zone ∧ Zone.index zone = i ∧
    Zone.name zone = get d (KEY_NAME K) ∧
    Zone.state zone = _convert_zone_status (get d (KEY_STATUS K)) ∧
    Zone.available zone = is_not_None (Zone.state zone) ∧
    Zone.pass_type zone = get_default d (KEY_PASS_TYPE K) (VInt 2).
Proof.
  intros Hv (h & ls & Hr & ->)%update_zones_inv Hd. simpl.
  unfold reconcile_zones in Hr.
  eapply reconcile_last_wins in Hr as (l & zone & Hl & Hin & Ho & Hi & Ha);
    [|entity_law..|done|exact Hd].
  exists l, zone. split_and!; try done; by rewrite <- Ha.
Qed.

(** ** Pruning: the scenario with zones 0, 1, 2 and a snapshot of 1 and 3 *)

Lemma index_in_index {E : Type} (index_of : E → Z) (h : list E)
    (cur : list Z) (l : loc) (i : Z) :
  index_of <$> h !! l = Some i →
  index_in index_of h cur l = bool_decide (i ∈ cur).
Proof.
  unfold index_in. destruct (h !! l) as [e|]; simpl; [|done].
  by intros [= ->].
Qed.

(** C6: the retained zones are three objects with the indexes 0, 1 and 2,
    and the zone descriptors of the snapshot carry exactly the indexes 1
    and 3. Then the reconciliation returns one newly created zone, a fresh
    object with index 3; the retained collection is zone 1 followed by it;
    the objects of zones 0 and 2 are no longer in the collection; and zone
    1 is the object it was, at the same location and with the serial it
    had, its fields now those of the last descriptor with index 1: the
    name and the pass type read from it (2 when it has none), the state
    translated from its status, and the availability that goes with that
    state. *)
Theorem update_zones_pruning zs w s l0 l1 l2 z0 z1 z2 :
  _info w !! KEY_DEVICE_SERIAL K = Some s →
  zones w = [l0; l1; l2] →
  zone_store w !! l0 = Some z0 → zone_store w !! l1 = Some z1 →
  zone_store w !! l2 = Some z2 →
  Zone.index z0 = 0 → Zone.index z1 = 1 → Zone.index z2 = 2 →
  Forall (λ d, index_typed (KEY_INDEX K) d = true) zs →
  (∀ i, i ∈ seen (KEY_INDEX K) zs ↔ i = 1 ∨ i = 3) →
  ∃ w' z3 d1 z1',
    _update_zones K zs w = (Ok [length (zone_store w)], w') ∧
    zones w' = [l1; length (zone_store w)] ∧
    (l0 ∉ zones w') ∧ (l2 ∉ zones w') ∧
    zone_store w' !! length (zone_store w) = Some z3 ∧ Zone.index z3 = 3 ∧
    last_with (KEY_INDEX K) 1 zs = Some d1 ∧
    zone_store w' !! l1 = Some z1' ∧
    Zone.index z1' = 1 ∧
    Zone.name z1' = get d1 (KEY_NAME K) ∧
    Zone.state z1' = _convert_zone_status (get d1 (KEY_STATUS K)) ∧
    Zone.available z1' = is_not_None (Zone.state z1') ∧
    Zone.pass_type z1' = get_default d1 (KEY_PASS_TYPE K) (VInt 2) ∧
    Zone.webio_serial z1' = Zone.webio_serial z1.
Proof.
  intros Hs Hzs H0 H1 H2 Hi0 Hi1 Hi2 Ht Hseen.
  destruct (update_zones_returns zs w s Hs Ht) as (new & w' & Hu).
  rewrite Hu.
  apply update_zones_inv in Hu as (h1 & ls1 & Hr & ->). simpl.
  unfold reconcile_zones in Hr.
  set (h := zone_store w) in *.
  assert (indexes Zone.index h (zones w) = [Some 0; Some 1; Some 2]) as Hidx.
  { unfold indexes. rewrite Hzs. simpl. rewrite H0, H1, H2. simpl.
    by rewrite Hi0, Hi1, Hi2. }
  assert (distinct Zone.index h (zones w)) as Hd.
  { split.
    - unfold valid. rewrite Hzs.
      repeat (apply Forall_cons; split; [by eapply lookup_lt_Some|]).
      apply Forall_nil_2.
    - rewrite Hidx.
      repeat (apply NoDup_cons; split;
        [rewrite ?elem_of_cons, elem_of_nil; intros Hc; decompose [or] Hc;
         congruence|]).
      apply NoDup_nil_2. }
  pose proof Hd as [Hv _].
  assert (1 ∈ seen (KEY_INDEX K) zs) as Hs1 by (apply Hseen; by left).
  assert (3 ∈ seen (KEY_INDEX K) zs) as Hs3 by (apply Hseen; by right).
  assert (0 ∉ seen (KEY_INDEX K) zs) as Hs0 by (intros [?|?]%Hseen; lia).
  assert (2 ∉ seen (KEY_INDEX K) zs) as Hs2 by (intros [?|?]%Hseen; lia).
  (* one entity is created, for index 3 *)
  edestruct (reconcile_single_new Zone.index zone_unavailable
    (λ i s, Zone.init i s None) (zone_assign K) (KEY_INDEX K))
    as [Hnew Hn3]; [entity_law..|exact Hd|exact Hr|exact Hs3| | |].
  { rewrite Hidx, !elem_of_cons, elem_of_nil. intros Hc.
    decompose [or] Hc; congruence. }
  { intros j [->| ->]%Hseen; [right|by left]. rewrite Hidx. right. left. }
  subst new.
  (* the indexes of the old cells are the former ones *)
  assert (∀ l z, h !! l = Some z →
            Zone.index <$> h1 !! l = Some (Zone.index z)) as Hold.
  { intros l z Hl.
    erewrite (reconcile_preserved Zone.index zone_unavailable
      (λ i s, Zone.init i s None) (zone_assign K) (KEY_INDEX K));
      [|entity_law..|exact Hr|by eapply lookup_lt_Some].
    rewrite Hl. done. }
  (* the retained collection after the prune pass *)
  assert (ls1 = [l1; length h]) as ->.
  { apply reconcile_Ok in Hr as (ls' & _ & -> & ->); [|entity_law..].
    unfold prune. destruct (seen (KEY_INDEX K) zs) as [|j js] eqn:Hsj.
    { by apply elem_of_nil in Hs1. }
    simpl length. rewrite Hzs. simpl app.
    rewrite !filter_cons, filter_nil.
    rewrite (index_in_index _ _ _ l0 0), (index_in_index _ _ _ l1 1),
      (index_in_index _ _ _ l2 2), (index_in_index _ _ _ (length h) 3);
      [|by rewrite ?(Hold _ _ H0), ?(Hold _ _ H1), ?(Hold _ _ H2),
           ?Hi0, ?Hi1, ?Hi2..].
    rewrite (bool_decide_eq_false_2 _ Hs0), (bool_decide_eq_false_2 _ Hs2),
      (bool_decide_eq_true_2 _ Hs1), (bool_decide_eq_true_2 _ Hs3).
    done. }
  destruct (h1 !! length h) as [z3|] eqn:Hz3; [|done].
  simpl in Hn3. injection Hn3 as Hn3.
  assert (l0 ≠ l1 ∧ l2 ≠ l1) as [Hl01 Hl21].
  { split; intros ->; congruence. }
  assert (l0 ≠ length h ∧ l2 ≠ length h) as [Hl0n Hl2n].
  { apply lookup_lt_Some in H0, H2. lia. }
  destruct (proj2 (last_with_is_Some (KEY_INDEX K) 1 zs) Hs1) as [d1 Hd1].
  (* zone 1 is the cell it was, with the values of its last descriptor *)
  edestruct (reconcile_last_wins Zone.index zone_unavailable
    (λ i s, Zone.init i s None) (zone_assign K) (KEY_INDEX K))
    as (l & e & _ & Hl & He & Hie & Ha);
    [entity_law..|exact Hv|exact Hr|exact Hd1|].
  assert (l = l1) as ->.
  { apply elem_of_cons in Hl as [->|[->|?%elem_of_nil]%elem_of_cons];
      [done| |done].
    rewrite Hz3 in He. injection He as ->. lia. }
  assert ((λ z, (Zone.index z, Zone.webio_serial z)) <$> h1 !! l1 =
          (λ z, (Zone.index z, Zone.webio_serial z)) <$> h !! l1) as Hp.
  { eapply (reconcile_preserved Zone.index zone_unavailable
      (λ i s, Zone.init i s None) (zone_assign K) (KEY_INDEX K));
      [entity_law..|exact Hr|by eapply lookup_lt_Some]. }
  rewrite He, H1 in Hp. simpl in Hp. injection Hp as Hpi Hps.
  exists (with_zones [l1; length h] h1 w), z3, d1, e. simpl.
  split_and!; try done.
  - intros [?|[?|?%elem_of_nil]%elem_of_cons]%elem_of_cons; done.
  - intros [?|[?|?%elem_of_nil]%elem_of_cons]%elem_of_cons; done.
  - by rewrite <- Ha.
  - by rewrite <- Ha.
  - by rewrite <- Ha.
  - by rewrite <- Ha.
Qed.
End FacadeFacts.

(** * The claims *)

(** ** Error handling *)

(** C1, as stated, fails: before [refresh_device_info] has succeeded, a
    snapshot that lists one output with a fresh index makes
    [update_device_status] raise [KeyError] to its caller. *)
Lemma update_before_refresh_raises :
  get_serial_number spec_const init = None ∧
  fst (update_device_status spec_const ex_snapshot_one init) = Raise KeyError.
Proof. by vm_compute. Qed.

(** C1, amended: [update_device_status] returns normally for every snapshot
    whose descriptor indexes are missing or integers, once the device
    serial is stored. With or without a stored serial it returns normally
    when every descriptor lacks an index or carries a negative one, and more
    generally when no entity has to be constructed because every recorded
    index is retained already. [refresh_device_info] returns a boolean for
    every answer that is a dictionary; an answer that is not one makes it
    raise [TypeError] to its caller, the facade left as it was. *)
Theorem update_device_status_returns (K : Const) (w : WebioAPI)
    (new_status : snapshot) :
  (∀ s, _info w !! KEY_DEVICE_SERIAL K = Some s →
        snapshot_typed K new_status = true →
        returns (fst (update_device_status K new_status w)) = true) ∧
  (snapshot_skipped K new_status = true →
     returns (fst (update_device_status K new_status w)) = true) ∧
  (snapshot_typed K new_status = true →
   (∀ os i, new_status !! KEY_OUTPUTS K = Some os →
            i ∈ seen (KEY_INDEX K) os → is_Some (_get_output w i)) →
   (∀ zs i, new_status !! KEY_ZONES K = Some zs →
            i ∈ seen (KEY_INDEX K) zs → is_Some (_get_zone w i)) →
   returns (fst (update_device_status K new_status w)) = true) ∧
  (∀ info : dict,
     returns (fst (refresh_device_info K (Mapping info) w)) = true) ∧
  (∀ v : value,
     refresh_device_info K (NotMapping v) w = (Raise TypeError, w)).
Proof.
  split_and!.
  - intros s. apply update_device_status_typed_returns.
  - apply update_device_status_skipped_returns.
  - apply update_device_status_found_returns.
  - intros info.
    by destruct (refresh_device_info_returns K info w) as (b & w' & ->).
  - intros v. apply refresh_device_info_not_mapping.
Qed.

Lemma update_device_status_returns_witness :
  returns (fst (update_device_status spec_const ex_snapshot ex_ready)) = true ∧
  returns (fst (update_device_status spec_const ex_snapshot_malformed init))
    = true.
Proof.
  split.
  - apply (proj1 (update_device_status_returns spec_const ex_ready ex_snapshot)
             (VStr "AB12CD")); by vm_compute.
  - apply (proj1 (proj2 (update_device_status_returns spec_const init
                           ex_snapshot_malformed))).
    by vm_compute.
Defined.

(** What [refresh_device_info] does keep: an answer with no serial, or with
    a serial that is not a string, fails and leaves the facade as it was. *)
Lemma refresh_device_info_no_serial (K : Const) (info : dict) (w : WebioAPI) :
  (∀ s, info !! KEY_WEBIO_SERIAL K ≠ Some (VStr s)) →
  refresh_device_info K (Mapping info) w = (Ok false, w).
Proof.
  intros Hs. unfold refresh_device_info, refresh_try.
  destruct (info !! KEY_WEBIO_SERIAL K) as [[| | |s|]|]; try done.
  by destruct (Hs s).
Qed.

(** An answer with a string serial and no name fails as well, but by then
    the serial has been stored. *)
Lemma refresh_device_info_no_name (K : Const) (info : dict) (w : WebioAPI)
    (s : string) :
  info !! KEY_WEBIO_SERIAL K = Some (VStr s) →
  info !! KEY_WEBIO_NAME K = None →
  fst (refresh_device_info K (Mapping info) w) = Ok false ∧
  get_serial_number K (snd (refresh_device_info K (Mapping info) w))
    = Some (VStr (remove_hyphens s)).
Proof.
  intros Hs Hn. unfold refresh_device_info, refresh_try, get_serial_number.
  rewrite Hs, Hn. simpl. split; [done|]. apply lookup_insert_eq.
Qed.

(** C2: [refresh_device_info] on a fresh facade, given an answer that has a
    serial and lacks the name, returns false and yet leaves the serial
    stored: [get_serial_number] was none before the call and is the
    cleaned serial after it. *)
Theorem refresh_missing_name_stores_serial :
  get_serial_number spec_const init = None ∧
  fst (refresh_device_info spec_const (Mapping ex_info_no_name) init)
    = Ok false ∧
  get_serial_number spec_const
    (snd (refresh_device_info spec_const (Mapping ex_info_no_name) init))
    = Some (VStr "AB12CD").
Proof. by vm_compute. Qed.

(** ** The prune pass *)

(** C3, as stated, fails: the outputs list of [ex_snapshot_malformed] is not
    empty and its only descriptor has no index; the two retained outputs
    stay in the collection, whereas filtering against the empty set of seen
    indexes would leave none. *)
Lemma malformed_list_is_not_pruned :
  ex_snapshot_malformed !! "outputs" = Some [ex_malformed] ∧
  seen "index" [ex_malformed] = [] ∧
  outputs ex_after_malformed = [0%nat; 1%nat] ∧
  output_index_in (output_store ex_after_malformed) [] 0%nat = false ∧
  output_index_in (output_store ex_after_malformed) [] 1%nat = false.
Proof.
  split; [|split; [|split; [|split]]]; by vm_compute.
Qed.

(** C3, amended: the gate of the prune pass is the list of recorded indexes,
    not the incoming list. When at least one descriptor carries a valid
    index, a reconciliation that returns ends by filtering the retained
    collection (the former one followed by the created entities) down to
    exactly the entities whose index a descriptor of this snapshot carried;
    when no descriptor does (the list is empty or all of it is malformed),
    nothing is filtered and nothing is created. *)
Theorem prune_pass (K : Const) (w : WebioAPI) :
  (∀ os new w', _update_outputs K os w = (Ok new, w') →
     (seen (KEY_INDEX K) os ≠ [] →
        outputs w' =
          filter (λ o, output_index_in (output_store w')
                         (seen (KEY_INDEX K) os) o) (outputs w ++ new)) ∧
     (seen (KEY_INDEX K) os = [] → outputs w' = outputs w ∧ new = [])) ∧
  (∀ zs new w', _update_zones K zs w = (Ok new, w') →
     (seen (KEY_INDEX K) zs ≠ [] →
        zones w' =
          filter (λ z, zone_index_in (zone_store w')
                         (seen (KEY_INDEX K) zs) z) (zones w ++ new)) ∧
     (seen (KEY_INDEX K) zs = [] → zones w' = zones w ∧ new = [])).
Proof.
  split.
  - intros os new w' Hu. pose proof (update_outputs_prune K _ _ _ _ Hu) as Hp.
    unfold prune in Hp. split.
    + intros Hne. destruct (seen (KEY_INDEX K) os); done.
    + intros Hnil. pose proof (update_outputs_no_index K _ _ _ _ Hu Hnil) as ->.
      rewrite Hnil, app_nil_r in Hp. done.
  - intros zs new w' Hu. pose proof (update_zones_prune K _ _ _ _ Hu) as Hp.
    unfold prune in Hp. split.
    + intros Hne. destruct (seen (KEY_INDEX K) zs); done.
    + intros Hnil. pose proof (update_zones_no_index K _ _ _ _ Hu Hnil) as ->.
      rewrite Hnil, app_nil_r in Hp. done.
Qed.

Lemma prune_pass_witness : zones ex_pruned = [1%nat; 3%nat].
Proof.
  rewrite (proj1 (proj2 (prune_pass spec_const ex_facade)
                    ex_zones_13 [3%nat] ex_pruned ltac:(by vm_compute))
             ltac:(by vm_compute)).
  by vm_compute.
Defined.

(** ** Idempotence *)

(** C4, as stated, fails: on a new facade, which has no stored serial, the
    snapshot [ex_snapshot_one] is not empty, and both the first and the
    second application of it raise [KeyError]: the second yields no list of
    newly created entities. *)
Lemma update_twice_before_refresh_raises :
  ex_snapshot_one !! "outputs" = Some [ex_output 0 "true"] ∧
  fst (update_device_status spec_const ex_snapshot_one init) = Raise KeyError ∧
  fst (update_device_status spec_const ex_snapshot_one
         (snd (update_device_status spec_const ex_snapshot_one init)))
    = Raise KeyError.
Proof. by vm_compute. Qed.

(** C4, amended: applying a snapshot a second time right after the first
    leaves the facade exactly as the first application left it: the
    retained collections, their order and every field of every entity are
    the same after both. When the first application returned, the second
    returns an empty newly-created list for each category; when the first
    raised, the second raises the same exception. This holds of every
    snapshot, empty or not, and of every facade whose retained references
    address objects. The first application returns, so that the second
    returns the two empty lists, whenever the device serial is stored and
    every index of the snapshot is missing or an integer. *)
Theorem update_device_status_idempotent (K : Const) (new_status : snapshot)
    (w : WebioAPI) :
  wf w →
  update_device_status K new_status
    (snd (update_device_status K new_status w)) =
    (match fst (update_device_status K new_status w) with
     | Ok _ => Ok ([], [])
     | Raise e => Raise e
     end,
     snd (update_device_status K new_status w)) ∧
  (∀ s, _info w !! KEY_DEVICE_SERIAL K = Some s →
        snapshot_typed K new_status = true →
        update_device_status K new_status
          (snd (update_device_status K new_status w)) =
          (Ok ([], []), snd (update_device_status K new_status w))).
Proof.
  intros Hw.
  assert (update_device_status K new_status
            (snd (update_device_status K new_status w)) =
          (match fst (update_device_status K new_status w) with
           | Ok _ => Ok ([], [])
           | Raise e => Raise e
           end,
           snd (update_device_status K new_status w))) as Hagain.
  { destruct (update_device_status K new_status w) as [r w'] eqn:Hu.
    simpl. by eapply update_device_status_again. }
  split; [exact Hagain|].
  intros s Hs Ht. rewrite Hagain.
  pose proof (update_device_status_typed_returns K new_status w s Hs Ht) as Hr.
  by destruct (fst (update_device_status K new_status w)).
Qed.

Lemma update_device_status_idempotent_witness :
  update_device_status spec_const ex_snapshot ex_facade
    = (Ok ([], []), ex_facade).
Proof.
  change (Ok ([], []), ex_facade) with
    (match fst (update_device_status spec_const ex_snapshot ex_ready) with
     | Ok _ => Ok ([]: list loc, []: list loc)
     | Raise e => Raise e
     end,
     snd (update_device_status spec_const ex_snapshot ex_ready)).
  apply (proj1 (update_device_status_idempotent spec_const ex_snapshot
                  ex_ready ltac:(split; by vm_compute))).
Defined.

(** ** Availability *)

(** C5: [available == (state is not None)] holds of an [Output] and of a
    [Zone] right after construction, after the mark-unavailable step and
    after the assignments made from a descriptor; every call of the facade
    keeps it for every entity, whether the call returns or raises; so it
    holds of every entity, and of every retained entity, after any run of
    calls on a new facade. *)
Theorem availability_invariant (K : Const) :
  (∀ i s st, Output.consistent (Output.init i s st)) ∧
  (∀ i s st, Zone.consistent (Zone.init i s st)) ∧
  (∀ o, Output.consistent (output_unavailable o)) ∧
  (∀ z, Zone.consistent (zone_unavailable z)) ∧
  (∀ d o, Output.consistent (output_assign K d o)) ∧
  (∀ d z, Zone.consistent (zone_assign K d z)) ∧
  (∀ c w, consistent w → consistent (do_call K c w)) ∧
  (∀ cs, consistent (run K cs init) ∧
         Forall Output.consistent (retained_outputs (run K cs init)) ∧
         Forall Zone.consistent (retained_zones (run K cs init))).
Proof.
  split_and!; try done.
  - intros c w. apply do_call_invariants.
  - intros cs.
    assert (consistent (run K cs init)) as Hc.
    { apply run_invariants, init_invariants. }
    split; [done|]. destruct Hc as [Ho Hz].
    split; by apply retained_Forall.
Qed.

Lemma availability_invariant_witness :
  consistent (do_call spec_const (CallUpdate ex_snapshot) ex_ready).
Proof.
  apply (proj1 (proj2 (proj2 (proj2 (proj2 (proj2 (proj2
           (availability_invariant spec_const)))))))).
  split; by vm_compute.
Defined.

(** ** A category list that is present and empty *)

(** C7: reconciling a category list that is present and empty always
    returns, with an empty delta, and leaves the retained collection of
    that category holding the same entities as before, as many as before,
    each with state unknown and available false; no entity is deleted. So
    does [update_device_status] for the outputs of any snapshot whose
    outputs list is empty, and, when it returns, for each category whose
    list is empty. *)
Theorem empty_category_marks_unavailable (K : Const) (w : WebioAPI) :
  (∃ w', _update_outputs K [] w = (Ok [], w') ∧ outputs w' = outputs w ∧
     length (retained_outputs w') = length (retained_outputs w) ∧
     retained_outputs w' = output_unavailable <$> retained_outputs w ∧
     Forall (λ o, Output.state o = None ∧ Output.available o = false)
       (retained_outputs w')) ∧
  (∃ w', _update_zones K [] w = (Ok [], w') ∧ zones w' = zones w ∧
     length (retained_zones w') = length (retained_zones w) ∧
     retained_zones w' = zone_unavailable <$> retained_zones w ∧
     Forall (λ z, Zone.state z = None ∧ Zone.available z = false)
       (retained_zones w')) ∧
  (∀ new_status, new_status !! KEY_OUTPUTS K = Some [] →
     outputs (snd (update_device_status K new_status w)) = outputs w ∧
     retained_outputs (snd (update_device_status K new_status w))
       = output_unavailable <$> retained_outputs w) ∧
  (∀ new_status r w', update_device_status K new_status w = (Ok r, w') →
     (new_status !! KEY_OUTPUTS K = Some [] → fst r = []) ∧
     (new_status !! KEY_ZONES K = Some [] →
        snd r = [] ∧ zones w' = zones w ∧
        retained_zones w' = zone_unavailable <$> retained_zones w)).
Proof.
  split_and!.
  - exists (mark_outputs w). rewrite retained_outputs_mark.
    split_and!; try done.
    + by rewrite length_fmap.
    + apply Forall_fmap, Forall_true. done.
  - exists (mark_zones w). rewrite retained_zones_mark.
    split_and!; try done.
    + by rewrite length_fmap.
    + apply Forall_fmap, Forall_true. done.
  - intros new_status Ho.
    destruct (update_device_status K new_status w) as [r w'] eqn:Hu. simpl.
    apply update_device_status_inv in Hu as (r1 & w1 & H1 & H2).
    rewrite Ho, update_outputs_nil in H1. injection H1 as <- <-.
    destruct H2 as (r2 & H2 & _).
    assert (outputs w' = outputs (mark_outputs w) ∧
            output_store w' = output_store (mark_outputs w)) as [Hl Hh].
    { destruct (new_status !! KEY_ZONES K) as [zs|].
      - by apply update_zones_frame in H2 as (_ & ? & ?).
      - by injection H2 as <- <-. }
    split; [done|]. unfold retained_outputs at 1. rewrite Hl, Hh.
    apply retained_outputs_mark.
  - intros new_status r w' Hu.
    apply update_device_status_inv in Hu as (r1 & w1 & H1 & H2).
    destruct r1 as [no|e]; [|by destruct H2].
    destruct H2 as (r2 & H2 & Hr). destruct r2 as [nz|e]; [|done].
    injection Hr as ->. simpl. split.
    + intros Ho. rewrite Ho, update_outputs_nil in H1. by injection H1 as <- <-.
    + intros Hz. rewrite Hz in H2.
      assert (zones w1 = zones w ∧ zone_store w1 = zone_store w) as [Hl Hh].
      { destruct (new_status !! KEY_OUTPUTS K) as [os|].
        - by apply update_outputs_frame in H1 as (_ & ? & ?).
        - by injection H1 as <- <-. }
      rewrite update_zones_nil in H2. injection H2 as <- <-.
      split_and!; try done.
      rewrite retained_zones_mark. unfold retained_zones. by rewrite Hl, Hh.
Qed.

Lemma empty_category_marks_unavailable_witness :
  retained_zones
    (snd (update_device_status spec_const ex_snapshot_empty ex_facade))
    = zone_unavailable <$> retained_zones ex_facade.
Proof.
  destruct (proj2 (proj2 (proj2
              (empty_category_marks_unavailable spec_const ex_facade)))
              ex_snapshot_empty ([], [])
              (snd (update_device_status spec_const ex_snapshot_empty ex_facade))
              ltac:(by vm_compute)) as [_ Hz].
  by destruct (Hz ltac:(by vm_compute)) as (_ & _ & Hr).
Defined.

(** ** A category key that is absent *)

(** C8: on a snapshot with no [outputs] key, [update_device_status] is the
    reconciliation of the zones alone, with an empty delta for the outputs:
    the retained outputs and the whole output store, hence every field of
    every output, are as before the call. The same holds of the zones when
    the [zones] key is absent. *)
Theorem absent_category_untouched (K : Const) (new_status : snapshot)
    (w : WebioAPI) :
  (new_status !! KEY_OUTPUTS K = None →
     outputs (snd (update_device_status K new_status w)) = outputs w ∧
     output_store (snd (update_device_status K new_status w))
       = output_store w ∧
     update_device_status K new_status w =
       match new_status !! KEY_ZONES K with
       | None => (Ok ([], []), w)
       | Some zs =>
           match _update_zones K zs w with
           | (Ok new_zones, w') => (Ok ([], new_zones), w')
           | (Raise e, w') => (Raise e, w')
           end
       end) ∧
  (new_status !! KEY_ZONES K = None →
     zones (snd (update_device_status K new_status w)) = zones w ∧
     zone_store (snd (update_device_status K new_status w)) = zone_store w ∧
     update_device_status K new_status w =
       match new_status !! KEY_OUTPUTS K with
       | None => (Ok ([], []), w)
       | Some os =>
           match _update_outputs K os w with
           | (Ok new_outputs, w') => (Ok (new_outputs, []), w')
           | (Raise e, w') => (Raise e, w')
           end
       end).
Proof.
  split.
  - intros Ho. unfold update_device_status. rewrite Ho.
    destruct (new_status !! KEY_ZONES K) as [zs|]; [|done].
    destruct (_update_zones K zs w) as [[nz|e] w'] eqn:Hz; simpl;
      by apply update_zones_frame in Hz as (_ & ? & ?).
  - intros Hz. unfold update_device_status. rewrite Hz.
    destruct (new_status !! KEY_OUTPUTS K) as [os|]; [|done].
    destruct (_update_outputs K os w) as [[no|e] w'] eqn:Ho; simpl;
      by apply update_outputs_frame in Ho as (_ & ? & ?).
Qed.

Lemma absent_category_untouched_witness :
  outputs (snd (update_device_status spec_const ex_snapshot_zones_only ex_facade))
    = outputs ex_facade ∧
  output_store
    (snd (update_device_status spec_const ex_snapshot_zones_only ex_facade))
    = output_store ex_facade.
Proof.
  destruct (proj1 (absent_category_untouched spec_const ex_snapshot_zones_only
                     ex_facade) ltac:(by vm_compute)) as (Ho & Hh & _).
  by split.
Defined.

(** ** The status translators *)

(** C9: the translators are total functions of their argument alone. For
    outputs, "true" gives true, "false" gives false, and a missing status or
    any other value gives unknown; for zones, "alarm" gives "triggered",
    "armed" gives "armed_away", "disarmed" gives "disarmed", and a missing
    status or any other value gives unknown. An entity assigned an unknown
    state is unavailable. *)
Theorem status_translators :
  _convert_outputs_status (VStr "true") = Some true ∧
  _convert_outputs_status (VStr "false") = Some false ∧
  _convert_outputs_status VNone = None ∧
  (∀ v, v ≠ VStr "true" → v ≠ VStr "false" →
        _convert_outputs_status v = None) ∧
  _convert_zone_status (VStr "alarm") = Some "triggered" ∧
  _convert_zone_status (VStr "armed") = Some "armed_away" ∧
  _convert_zone_status (VStr "disarmed") = Some "disarmed" ∧
  _convert_zone_status VNone = None ∧
  (∀ v, v ≠ VStr "alarm" → v ≠ VStr "armed" → v ≠ VStr "disarmed" →
        _convert_zone_status v = None) ∧
  (∀ (d : descriptor) k, d !! k = None → get d k = VNone) ∧
  (∀ K d o, _convert_outputs_status (get d (KEY_STATUS K)) = None →
            Output.state (output_assign K d o) = None ∧
            Output.available (output_assign K d o) = false) ∧
  (∀ K d z, _convert_zone_status (get d (KEY_STATUS K)) = None →
            Zone.state (zone_assign K d z) = None ∧
            Zone.available (zone_assign K d z) = false).
Proof.
  split_and!; try done.
  - intros v H1 H2. unfold _convert_outputs_status.
    repeat case_decide; done.
  - intros v H1 H2 H3. unfold _convert_zone_status.
    repeat case_decide; done.
  - intros d k Hk. unfold get. by rewrite Hk.
  - intros K d o Hc. unfold output_assign. simpl. by rewrite Hc.
  - intros K d z Hc. unfold zone_assign. simpl. by rewrite Hc.
Qed.

Lemma status_translators_witness :
  _convert_outputs_status (VStr "on") = None ∧
  _convert_zone_status (VBool true) = None.
Proof.
  split.
  - apply (proj1 (proj2 (proj2 (proj2 status_translators)))); done.
  - apply (proj1 (proj2 (proj2 (proj2 (proj2 (proj2 (proj2 (proj2
             (proj2 status_translators))))))))); done.
Defined.

(** ** Index uniqueness *)

(** C10: from a new facade, after every run of calls no two retained
    outputs share an index and no two retained zones share an index. So,
    on such a facade, when a reconciliation returns, each index the
    snapshot carries has one retained entity, the one the lookup finds, and
    that entity holds the values of the last descriptor carrying the
    index. *)
Theorem index_uniqueness (K : Const) :
  (∀ cs, unique_indexes (run K cs init) ∧
         NoDup (Output.index <$> retained_outputs (run K cs init)) ∧
         NoDup (Zone.index <$> retained_zones (run K cs init))) ∧
  (∀ w, unique_indexes w →
     (∀ os new w' i d,
        _update_outputs K os w = (Ok new, w') →
        last_with (KEY_INDEX K) i os = Some d →
        ∃ l out,
          _get_output w' i = Some l ∧ l ∈ outputs w' ∧
          output_store w' !! l = Some out ∧ Output.index out = i ∧
          Output.state out = _convert_outputs_status (get d (KEY_STATUS K)) ∧
          Output.available out = is_not_None (Output.state out) ∧
          ∀ l' out', l' ∈ outputs w' → output_store w' !! l' = Some out' →
                     Output.index out' = i → l' = l) ∧
     (∀ zs new w' i d,
        _update_zones K zs w = (Ok new, w') →
        last_with (KEY_INDEX K) i zs = Some d →
        ∃ l zone,
          _get_zone w' i = Some l ∧ l ∈ zones w' ∧
          zone_store w' !! l = Some zone ∧ Zone.index zone = i ∧
          Zone.name zone = get d (KEY_NAME K) ∧
          Zone.state zone = _convert_zone_status (get d (KEY_STATUS K)) ∧
          Zone.available zone = is_not_None (Zone.state zone) ∧
          Zone.pass_type zone = get_default d (KEY_PASS_TYPE K) (VInt 2) ∧
          ∀ l' zone', l' ∈ zones w' → zone_store w' !! l' = Some zone' →
                      Zone.index zone' = i → l' = l)).
Proof.
  split.
  - intros cs.
    assert (unique_indexes (run K cs init)) as Hu.
    { apply run_invariants, init_invariants. }
    split; [done|]. destruct Hu as [Ho Hz].
    split; by apply distinct_retained.
  - intros w Hw. split.
    + intros os new w' i d Hu Hd.
      destruct (update_outputs_last_wins K os w new w' i d)
        as (l & out & Hg & Hl & Ho & Hi & Hs & Ha);
        [by destruct Hw as [[? _] _]|done|done|].
      exists l, out. split_and!; try done.
      intros l' out' Hl' Ho' Hi'.
      assert (unique_indexes w') as [Hdo _].
      { apply update_outputs_inv in Hu as (h & ls & Hr & ->).
        destruct Hw as [Hdo Hdz]. split; [|done]. simpl.
        unfold reconcile_outputs in Hr.
        eapply reconcile_distinct in Hr; try done; entity_law. }
      eapply (distinct_same_index Output.index); try done. congruence.
    + intros zs new w' i d Hu Hd.
      destruct (update_zones_last_wins K zs w new w' i d)
        as (l & zone & Hg & Hl & Ho & Hi & Hn & Hs & Ha & Hp);
        [by destruct Hw as [_ [? _]]|done|done|].
      exists l, zone. split_and!; try done.
      intros l' zone' Hl' Ho' Hi'.
      assert (unique_indexes w') as [_ Hdz].
      { apply update_zones_inv in Hu as (h & ls & Hr & ->).
        destruct Hw as [Hdo Hdz]. split; [done|]. simpl.
        unfold reconcile_zones in Hr.
        eapply reconcile_distinct in Hr; try done; entity_law. }
      eapply (distinct_same_index Zone.index); try done. congruence.
Qed.

Lemma index_uniqueness_witness :
  ∃ l zone,
    _get_zone ex_pruned 3 = Some l ∧ zone_store ex_pruned !! l = Some zone ∧
    Zone.name zone = VStr "garage" ∧ Zone.state zone = Some "triggered".
Proof.
  destruct (proj2 (proj2 (index_uniqueness spec_const) ex_facade
              (proj1 (proj1 (index_uniqueness spec_const)
                 [CallRefresh (Mapping ex_info); CallUpdate ex_snapshot])))
              ex_zones_13 [3%nat] ex_pruned 3 (ex_zone 3 "garage" "alarm")
              ltac:(by vm_compute) ltac:(by vm_compute))
    as (l & zone & Hg & _ & Hz & _ & Hn & Hs & _).
  exists l, zone. split_and!; try done.
Defined.

(** ** Pruning *)

Lemma update_zones_pruning_witness :
  ∃ w' z3 z1',
    _update_zones spec_const ex_zones_13 ex_facade = (Ok [3%nat], w') ∧
    zones w' = [1%nat; 3%nat] ∧
    (0%nat ∉ zones w') ∧ (2%nat ∉ zones w') ∧
    zone_store w' !! 3%nat = Some z3 ∧ Zone.index z3 = 3 ∧
    zone_store w' !! 1%nat = Some z1' ∧
    Zone.index z1' = 1 ∧ Zone.name z1' = VStr "hall" ∧
    Zone.state z1' = Some "armed_away" ∧ Zone.available z1' = true ∧
    Zone.pass_type z1' = VInt 2 ∧ Zone.webio_serial z1' = VStr "AB12CD".
Proof.
  assert (∀ i, i ∈ seen (KEY_INDEX spec_const) ex_zones_13 ↔ i = 1 ∨ i = 3)
    as Hseen.
  { assert (seen (KEY_INDEX spec_const) ex_zones_13 = [1; 3]) as ->
      by by vm_compute.
    intros i. rewrite !elem_of_cons, elem_of_nil. tauto. }
  assert (Forall (λ d, index_typed (KEY_INDEX spec_const) d = true)
            ex_zones_13) as Ht.
  { repeat (constructor; [by vm_compute|]). constructor. }
  destruct (update_zones_pruning spec_const ex_zones_13 ex_facade
              (VStr "AB12CD") 0%nat 1%nat 2%nat
              (Zone.mk 0 (VStr "door") (Some "armed_away") (VInt 2) true
                 (VStr "AB12CD"))
              (Zone.mk 1 (VStr "hall") (Some "disarmed") (VInt 2) true
                 (VStr "AB12CD"))
              (Zone.mk 2 (VStr "yard") (Some "triggered") (VInt 2) true
                 (VStr "AB12CD"))
              ltac:(by vm_compute) ltac:(by vm_compute) ltac:(by vm_compute)
              ltac:(by vm_compute) ltac:(by vm_compute) ltac:(by vm_compute)
              ltac:(by vm_compute) ltac:(by vm_compute) Ht Hseen)
    as (w' & z3 & d1 & z1' & Hu & Hzs & H0 & H2 & H3 & Hi3 & Hd1 & H1 & Hi1 &
        Hn & Hst & Ha & Hp & Hs).
  assert (last_with (KEY_INDEX spec_const) 1 ex_zones_13 =
          Some (ex_zone 1 "hall" "armed")) as Hlast by by vm_compute.
  rewrite Hlast in Hd1. injection Hd1 as <-.
  exists w', z3, z1'. rewrite Hst in Ha. split_and!; try done.
Defined.


(** * Further properties *)

Lemma omap_ext_in {A B : Type} (f g : A → option B) (l : list A) :
  (∀ x, x ∈ l → f x = g x) → omap f l = omap g l.
Proof.
  induction l as [|a l IH]; intros Hfg; [done|]. csimpl.
  rewrite (Hfg a) by left. rewrite IH; [done|].
  intros x Hx. apply Hfg. by right.
Qed.

(** ** The engine *)
Section EngineMore.
Context {E : Type}.
Variable index_of : E → Z.
Variable unavailable : E → E.
Variable create : Z → value → E.
Variable assign : descriptor → E → E.
Variable key_index : string.

Hypothesis index_unavailable : ∀ e, index_of (unavailable e) = index_of e.
Hypothesis index_assign : ∀ d e, index_of (assign d e) = index_of e.
Hypothesis index_create : ∀ i s, index_of (create i s) = i.
Hypothesis unavailable_idem : ∀ e, unavailable (unavailable e) = unavailable e.
Hypothesis assign_unavailable : ∀ d e, assign d (unavailable e) = assign d e.
Hypothesis assign_assign : ∀ d d' e, assign d (assign d' e) = assign d e.

#[local] Abbreviation lookup_index' := (lookup_index index_of).
#[local] Abbreviation mark' := (mark unavailable).
#[local] Abbreviation index_in' := (index_in index_of).
#[local] Abbreviation pass' := (pass index_of create assign key_index).
#[local] Abbreviation prune' := (prune index_of).
#[local] Abbreviation reconcile' :=
  (reconcile index_of unavailable create assign key_index).
#[local] Abbreviation desc_index' := (desc_index key_index).
#[local] Abbreviation seen' := (seen key_index).
#[local] Abbreviation index_typed' := (index_typed key_index).
#[local] Abbreviation made' := (made create assign key_index).

(** The loop invariant rule once more, with the device serial known where
    an entity is created. *)
Lemma pass_invariant_serial (serial : option value)
    (I : list descriptor → list E → list loc → list Z → list loc → Prop) :
  (∀ p d h ls cur new,
     desc_index' d = None → I p h ls cur new → I (p ++ [d]) h ls cur new) →
  (∀ p d i l h ls cur new,
     desc_index' d = Some i → lookup_index' h ls i = Some l →
     I p h ls cur new →
     I (p ++ [d]) (alter (assign d) l h) ls (cur ++ [i]) new) →
  (∀ p d i s h ls cur new,
     serial = Some s →
     desc_index' d = Some i → lookup_index' h ls i = None →
     I p h ls cur new →
     I (p ++ [d]) (alter (assign d) (length h) (h ++ [create i s]))
       (ls ++ [length h]) (cur ++ [i]) (new ++ [length h])) →
  ∀ ds p h ls cur new r h' ls',
    I p h ls cur new →
    pass' serial ds h ls cur new = (r, (h', ls')) →
    match r with
    | Ok (cur', new') => I (p ++ ds) h' ls' cur' new'
    | Raise _ => ∃ p' cur' new', I (p ++ p') h' ls' cur' new'
    end.
Proof.
  intros Hskip Hfound Hcreate ds.
  induction ds as [|d ds IH]; intros p h ls cur new r h' ls' HI Hp.
  - simpl in Hp. injection Hp as <- <- <-. by rewrite app_nil_r.
  - assert (∀ h2 ls2 cur2 new2,
      I (p ++ [d]) h2 ls2 cur2 new2 →
      pass' serial ds h2 ls2 cur2 new2 = (r, (h', ls')) →
      match r with
      | Ok (cur', new') => I (p ++ d :: ds) h' ls' cur' new'
      | Raise _ => ∃ p' cur' new', I (p ++ p') h' ls' cur' new'
      end) as Hnext.
    { intros h2 ls2 cur2 new2 HI2 Hp2. apply (IH (p ++ [d])) in Hp2; [|done].
      destruct r as [[cur' new']|e].
      - by rewrite <- app_assoc in Hp2.
      - destruct Hp2 as (p' & cur' & new' & Hp2).
        exists ([d] ++ p'), cur', new'. by rewrite app_assoc. }
    simpl in Hp.
    destruct (as_int (get_default d key_index (VInt (-1)))) as [i|] eqn:Hi.
    2:{ injection Hp as <- <- <-. exists [], cur, new. by rewrite app_nil_r. }
    destruct (i <? 0)%Z eqn:Hneg.
    { eapply Hnext; [|done]. apply Hskip; [|done].
      unfold desc_index. by rewrite Hi, Hneg. }
    assert (desc_index' d = Some i) as Hd.
    { unfold desc_index. by rewrite Hi, Hneg. }
    destruct (lookup_index' h ls i) as [l|] eqn:Hl.
    { eapply Hnext; [|done]. by apply Hfound. }
    destruct serial as [s|] eqn:Hs.
    2:{ injection Hp as <- <- <-. exists [], cur, new. by rewrite app_nil_r. }
    eapply Hnext; [|done]. by apply Hcreate.
Qed.

(** The delta of a reconciliation that returned. Its entries are distinct
    cells allocated by this call; each is in the retained collection, holds
    a seen index, and has every property [P] that the constructor call
    with the stored serial establishes and the assignments keep. *)
Lemma reconcile_delta (P : E → Prop) serial ds h ls new h1 ls1 :
  (∀ d e, P e → P (assign d e)) →
  (∀ i s, serial = Some s → P (create i s)) →
  reconcile' serial ds h ls = (Ok new, (h1, ls1)) →
  NoDup new ∧
  ∀ l, l ∈ new →
    (length h ≤ l)%nat ∧ l ∈ ls1 ∧
    ∃ e, h1 !! l = Some e ∧ index_of e ∈ seen' ds ∧ P e.
Proof.
  intros Ha Hc Hr.
  apply reconcile_Ok in Hr as (ls' & Hp & -> & ->); [|assumption..].
  pose proof Hp as Hsh. apply pass_shape in Hsh; [|assumption..].
  destruct Hsh as (_ & _ & Hnew & Hlen & _).
  rewrite length_mark in Hnew.
  assert (∀ l, l ∈ new →
            ∃ e, h1 !! l = Some e ∧ index_of e ∈ seen' ds ∧ P e) as Hcells.
  { pose proof (pass_invariant_serial serial (λ _ h _ cur new,
      ∀ l, l ∈ new → ∃ e, h !! l = Some e ∧ index_of e ∈ cur ∧ P e))
      as Hinv.
    apply Hinv with (p := []) in Hp; [done|done|..].
    - intros _ d i l0 h0 _ cur new0 _ _ Hn l Hl.
      destruct (Hn l Hl) as (e & He & Hi & HP).
      rewrite list_lookup_alter. case_decide; subst.
      + rewrite He. simpl. eexists. split; [done|].
        rewrite index_assign. split; [apply elem_of_app; by left|by apply Ha].
      + exists e. split_and!; [done| |done]. apply elem_of_app. by left.
    - intros _ d i s h0 _ cur new0 Hs _ _ Hn l [Hl|Hl]%elem_of_app.
      + destruct (Hn l Hl) as (e & He & Hi & HP).
        pose proof (lookup_lt_Some _ _ _ He).
        rewrite list_lookup_alter_ne, lookup_app_l by lia.
        exists e. split_and!; [done| |done]. apply elem_of_app. by left.
      + apply list_elem_of_singleton in Hl as ->.
        rewrite list_lookup_alter_eq, lookup_app_r, Nat.sub_diag by lia.
        simpl. eexists. split; [done|].
        rewrite index_assign, index_create.
        split; [apply elem_of_app; right; left|]. apply Ha. by apply Hc.
    - intros l Hl. by apply elem_of_nil in Hl. }
  split.
  - rewrite Hnew. apply NoDup_seq.
  - intros l Hl. destruct (Hcells l Hl) as (e & He & Hi & HP).
    split_and!.
    + rewrite Hnew in Hl. apply elem_of_seq in Hl. lia.
    + unfold prune. destruct (seen' ds) as [|j js] eqn:Hs.
      { by apply elem_of_nil in Hi. }
      simpl. apply list_elem_of_filter. split.
      * apply Is_true_true. unfold index_in. rewrite He.
        by apply bool_decide_eq_true.
      * apply elem_of_app. by right.
    + eauto.
Qed.

(** After a reconciliation that returned and recorded an index, the indexes
    of the retained entities are the recorded ones: each recorded index has
    a retained entity, and no retained entity has another index. *)
Lemma reconcile_retained_indexes serial ds h ls new h1 ls1 i :
  valid h ls →
  reconcile' serial ds h ls = (Ok new, (h1, ls1)) →
  seen' ds ≠ [] →
  i ∈ seen' ds ↔ ∃ l e, l ∈ ls1 ∧ h1 !! l = Some e ∧ index_of e = i.
Proof.
  intros Hv Hr Hne. split.
  - intros Hi.
    pose proof Hr as Hst. apply reconcile_settled in Hst; [|assumption..].
    destruct Hst as (_ & Hs & _).
    destruct (Hs i Hi) as [l Hl].
    apply lookup_index_Some in Hl as (Hin & e & He & Hie). eauto.
  - intros (l & e & Hl & He & <-).
    apply reconcile_Ok in Hr as (ls' & _ & -> & _); [|assumption..].
    apply prune_index_in in Hl; [|done].
    apply index_in_true in Hl as (e' & He' & Hin). congruence.
Qed.

(** Why a reconciliation raises, and what it leaves: [KeyError] needs the
    device serial to be missing, [TypeError] needs an index that cannot be
    compared, no other exception is raised; the collection is the former
    one followed by the entities created before the exception. *)
Lemma reconcile_Raise serial ds h ls e h1 ls1 :
  reconcile' serial ds h ls = (Raise e, (h1, ls1)) →
  ((e = KeyError ∧ serial = None) ∨
   (e = TypeError ∧ ∃ d, d ∈ ds ∧ index_typed' d = false)) ∧
  ∃ created, ls1 = ls ++ created.
Proof.
  unfold reconcile.
  destruct (pass' serial ds (mark' h ls) ls [] []) as [[[cur new]|e'] [h' ls']]
    eqn:Hp; [done|].
  intros [= -> -> ->]. split.
  - apply pass_Raise in Hp as (p & d & rest & cur' & new' & -> & _ & Hd).
    simpl in Hd.
    destruct (as_int (get_default d key_index (VInt (-1)))) as [i|] eqn:Hi.
    + destruct (i <? 0)%Z; [done|].
      destruct (lookup_index' h1 ls1 i); [done|].
      destruct serial; [done|]. injection Hd as <-. by left.
    + injection Hd as <-. right. split; [done|]. exists d. split.
      * apply elem_of_app. right. left.
      * unfold index_typed. by rewrite Hi.
  - apply pass_shape in Hp; [|assumption..].
    destruct Hp as (p' & cur' & new' & _ & -> & _). eauto.
Qed.

(** The first snapshot. On an empty collection, with the serial stored and
    no index carried twice, the reconciliation constructs one entity for
    each descriptor with a valid index, in the order of the list, and the
    delta is the whole retained collection. *)
Lemma index_of_made (s : value) (ds : list descriptor) :
  index_of <$> made' s ds = seen' ds.
Proof.
  unfold made, seen. induction ds as [|d ds IH]; [done|]. csimpl.
  destruct (desc_index' d) as [i|]; csimpl; [|done].
  by rewrite index_assign, index_create, IH.
Qed.

Lemma made_snoc (s : value) (p : list descriptor) (d : descriptor) :
  made' s (p ++ [d]) =
    made' s p ++ from_option (λ i, [assign d (create i s)]) [] (desc_index' d).
Proof.
  unfold made. rewrite omap_app. csimpl. by destruct (desc_index' d).
Qed.

Lemma reconcile_first (s : value) ds h :
  Forall (λ d, index_typed' d = true) ds →
  NoDup (seen' ds) →
  ∃ h1 ls1,
    reconcile' (Some s) ds h [] = (Ok ls1, (h1, ls1)) ∧
    omap (λ l : loc, h1 !! l) ls1 = made' s ds.
Proof.
  intros Ht Hnd.
  pose proof (reconcile_returns index_of unavailable create assign key_index
    s ds h [] Ht) as Hret.
  destruct (reconcile' (Some s) ds h []) as [[new|e] [h1 ls1]] eqn:Hr; [|done].
  exists h1, ls1. clear Hret.
  apply reconcile_Ok in Hr as (ls' & Hp & -> & ->); [|assumption..].
  simpl app.
  pose proof (pass_invariant_serial (Some s) (λ p h ls cur new,
    NoDup (seen' p) →
    ls = new ∧ valid h ls ∧ omap (λ l : loc, h !! l) ls = made' s p)) as Hinv.
  apply Hinv with (p := []) in Hp.
  - simpl in Hp. destruct (Hp Hnd) as (_ & Hv & Hm).
    assert (prune' h1 (seen' ds) new = new) as ->; [|done].
    unfold prune. destruct (0 <? length (seen' ds))%nat; [|done].
    apply filter_all. intros l Hl. apply Is_true_true, index_in_true.
    pose proof (valid_elem _ _ _ Hv Hl) as Hlt.
    apply lookup_lt_is_Some_2 in Hlt as [e He]. exists e. split; [done|].
    rewrite <- (index_of_made s ds), <- Hm.
    apply list_elem_of_fmap. exists e. split; [done|].
    apply list_elem_of_omap. eauto.
  - intros p d h0 ls cur new0 Hd HI Hnd'.
    rewrite seen_snoc, Hd, app_nil_r in Hnd'.
    rewrite made_snoc, Hd, app_nil_r. by apply HI.
  - intros p d i l h0 ls cur new0 Hd Hl HI Hnd'. exfalso.
    rewrite seen_snoc, Hd in Hnd'. simpl in Hnd'.
    apply NoDup_app in Hnd' as (Hnp & Hdisj & _).
    destruct (HI Hnp) as (_ & _ & Hm).
    apply lookup_index_Some in Hl as (Hin & e & He & Hie).
    apply (Hdisj i); [|left].
    rewrite <- (index_of_made s p), <- Hm.
    apply list_elem_of_fmap. exists e. split; [done|].
    apply list_elem_of_omap. eauto.
  - intros p d i s0 h0 ls cur new0 [= <-] Hd Hl HI Hnd'.
    rewrite seen_snoc, Hd in Hnd'. simpl in Hnd'.
    apply NoDup_app in Hnd' as (Hnp & _ & _).
    destruct (HI Hnp) as (-> & Hv & Hm). split_and!; [done| |].
    + unfold valid. rewrite length_alter, length_app. simpl.
      apply Forall_app. split.
      * eapply Forall_impl; [exact Hv|]. simpl. lia.
      * apply Forall_singleton. lia.
    + rewrite made_snoc, Hd, omap_app. simpl. f_equal.
      * rewrite <- Hm. apply omap_ext_in.
        intros l Hl'. pose proof (valid_elem _ _ _ Hv Hl').
        rewrite list_lookup_alter_ne, lookup_app_l by lia. done.
      * rewrite list_lookup_alter_eq, lookup_app_r, Nat.sub_diag by lia. done.
  - intros _. split_and!; [done| |done]. by apply valid_mark, Forall_nil_2.
Qed.
(** A property of the cells that marking and assignment keep, and that the
    constructor call with the stored serial establishes, holds for the whole
    store after a reconciliation, returning or raising. *)
Lemma Forall_mark_kept (P : E → Prop) (h : list E) (ls : list loc) :
  (∀ e, P e → P (unavailable e)) → Forall P h → Forall P (mark' h ls).
Proof.
  intros Hu. revert h. induction ls as [|l ls IH]; intros h Hh; [done|].
  apply IH. apply Forall_alter; auto.
Qed.

Lemma reconcile_Forall_serial (P : E → Prop) serial ds h ls r h1 ls1 :
  (∀ e, P e → P (unavailable e)) → (∀ d e, P e → P (assign d e)) →
  (∀ i s, serial = Some s → P (create i s)) →
  Forall P h →
  reconcile' serial ds h ls = (r, (h1, ls1)) →
  Forall P h1.
Proof.
  intros Hu Ha Hc Hh. unfold reconcile.
  destruct (pass' serial ds (mark' h ls) ls [] []) as [r' [h' ls']] eqn:Hp.
  pose proof (pass_invariant_serial serial (λ _ h _ _ _, Forall P h)) as Hinv.
  apply Hinv with (p := []) in Hp.
  - destruct r' as [[cur new]|e]; intros [= <- <- <-]; [done|].
    by destruct Hp as (_ & _ & _ & ?).
  - done.
  - intros _ d i l h2 _ _ _ _ _ Hh2. apply Forall_alter; auto.
  - intros _ d i s h2 _ _ _ Hs _ _ Hh2. apply Forall_alter; [|auto].
    apply Forall_app. split; [done|]. apply Forall_singleton. eauto.
  - by apply Forall_mark_kept.
Qed.
(** A cell whose index no descriptor carries is left as the marking made
    it: unavailable when it was retained, as it was otherwise. *)
Lemma reconcile_unseen serial ds h ls new h1 ls1 l e :
  reconcile' serial ds h ls = (Ok new, (h1, ls1)) →
  h !! l = Some e → index_of e ∉ seen' ds →
  h1 !! l = Some (if decide (l ∈ ls) then unavailable e else e).
Proof.
  intros Hr He Hi.
  apply reconcile_Ok in Hr as (ls' & Hp & _ & _); [|assumption..].
  pose proof (pass_invariant index_of create assign key_index
    (λ p h2 _ _ _,
       ∀ l e, mark' h ls !! l = Some e → index_of e ∉ seen' p →
              h2 !! l = Some e)) as Hinv.
  apply Hinv with (p := []) in Hp.
  - simpl in Hp. apply Hp.
    + rewrite lookup_mark, He by assumption. by destruct (decide (l ∈ ls)).
    + destruct (decide (l ∈ ls)); [|done]. by rewrite index_unavailable.
  - intros p d h2 ls2 cur nw Hd HI l0 e0 H0 Hn. apply HI; [done|].
    by rewrite seen_snoc, Hd, app_nil_r in Hn.
  - intros p d i l' h2 ls2 cur nw Hd Hl HI l0 e0 H0 Hn.
    rewrite seen_snoc, Hd in Hn. simpl in Hn.
    apply not_elem_of_app in Hn as [Hn Hne].
    rewrite list_elem_of_singleton in Hne.
    specialize (HI l0 e0 H0 Hn).
    apply lookup_index_Some in Hl as (_ & e' & He' & Hi').
    rewrite list_lookup_alter_ne; [done|]. intros ->. congruence.
  - intros p d i s h2 ls2 cur nw Hd Hl HI l0 e0 H0 Hn.
    rewrite seen_snoc, Hd in Hn. simpl in Hn.
    apply not_elem_of_app in Hn as [Hn _].
    specialize (HI l0 e0 H0 Hn).
    pose proof (lookup_lt_Some _ _ _ HI) as Hlt.
    rewrite list_lookup_alter_ne by lia. by rewrite lookup_app_l.
  - done.
Qed.
(** The lookup by index succeeds exactly for the indexes of the retained
    entities. *)
Lemma lookup_index_is_Some (h : list E) (ls : list loc) (i : Z) :
  is_Some (lookup_index' h ls i) ↔
  ∃ l e, l ∈ ls ∧ h !! l = Some e ∧ index_of e = i.
Proof.
  split.
  - intros [l Hl]. apply lookup_index_Some in Hl as (? & e & ? & ?). eauto.
  - intros (l & e & Hl & He & Hi).
    destruct (lookup_index' h ls i) as [l'|] eqn:Hf; [by eauto|].
    rewrite lookup_index_None in Hf. by destruct (Hf l e Hl He).
Qed.
End EngineMore.

Lemma elem_of_retained {A : Type} (f : A → Z) (h : list A) (ls : list loc)
    (i : Z) :
  i ∈ f <$> omap (λ l : loc, h !! l) ls ↔
  ∃ l e, l ∈ ls ∧ h !! l = Some e ∧ f e = i.
Proof.
  rewrite list_elem_of_fmap. split.
  - intros (e & -> & (l & Hl & He)%list_elem_of_omap). eauto.
  - intros (l & e & Hl & He & <-). exists e. split; [done|].
    apply list_elem_of_omap. eauto.
Qed.

(** ** The facade *)
Section FacadeMore.
Variable K : Const.

Lemma kept_lookup {A B : Type} (f : A → B) (h h' : list A) (l : loc) (a : A) :
  f <$> h' !! l = f <$> h !! l → h !! l = Some a →
  ∃ a', h' !! l = Some a' ∧ f a' = f a.
Proof.
  intros Hf Ha. rewrite Ha in Hf. destruct (h' !! l) as [a'|]; [|done].
  simpl in Hf. injection Hf as Hf. eauto.
Qed.

Lemma update_outputs_kept os w r w' :
  _update_outputs K os w = (r, w') → kept w w'.
Proof.
  intros (h & ls & Hr & ->)%update_outputs_inv. split; [|by eauto].
  intros l o Ho. simpl. unfold reconcile_outputs in Hr.
  assert ((λ o, (Output.index o, Output.webio_serial o)) <$> h !! l =
          (λ o, (Output.index o, Output.webio_serial o))
            <$> output_store w !! l) as Hf.
  { eapply (reconcile_preserved Output.index output_unavailable
      (λ i s, Output.init i s None) (output_assign K) (KEY_INDEX K));
      [entity_law..|exact Hr|by eapply lookup_lt_Some]. }
  destruct (kept_lookup _ _ _ _ _ Hf Ho) as (o' & Ho' & [= Hi Hs]). eauto.
Qed.

Lemma update_zones_kept zs w r w' :
  _update_zones K zs w = (r, w') → kept w w'.
Proof.
  intros (h & ls & Hr & ->)%update_zones_inv. split; [by eauto|].
  intros l z Hz. simpl. unfold reconcile_zones in Hr.
  assert ((λ z, (Zone.index z, Zone.webio_serial z)) <$> h !! l =
          (λ z, (Zone.index z, Zone.webio_serial z))
            <$> zone_store w !! l) as Hf.
  { eapply (reconcile_preserved Zone.index zone_unavailable
      (λ i s, Zone.init i s None) (zone_assign K) (KEY_INDEX K));
      [entity_law..|exact Hr|by eapply lookup_lt_Some]. }
  destruct (kept_lookup _ _ _ _ _ Hf Hz) as (z' & Hz' & [= Hi Hs]). eauto.
Qed.

Lemma kept_trans w1 w2 w3 : kept w1 w2 → kept w2 w3 → kept w1 w3.
Proof.
  intros [Ho Hz] [Ho' Hz']. split.
  - intros l o Hl. destruct (Ho l o Hl) as (o1 & H1 & Hi & Hs).
    destruct (Ho' l o1 H1) as (o2 & H2 & Hi' & Hs').
    exists o2. split_and!; [done|congruence..].
  - intros l z Hl. destruct (Hz l z Hl) as (z1 & H1 & Hi & Hs).
    destruct (Hz' l z1 H1) as (z2 & H2 & Hi' & Hs').
    exists z2. split_and!; [done|congruence..].
Qed.

Lemma update_device_status_kept new_status w :
  kept w (snd (update_device_status K new_status w)).
Proof.
  apply (update_device_status_preserves K (kept w)).
  - intros os w0 r w' Hk Hu. eapply kept_trans; [done|].
    by eapply update_outputs_kept.
  - intros zs w0 r w' Hk Hu. eapply kept_trans; [done|].
    by eapply update_zones_kept.
  - split; eauto.
Qed.

(** The delta of one category. *)
Lemma update_outputs_delta os w new w' :
  _update_outputs K os w = (Ok new, w') →
  NoDup new ∧
  ∀ l, l ∈ new →
    (length (output_store w) ≤ l)%nat ∧ l ∈ outputs w' ∧
    ∃ o, output_store w' !! l = Some o ∧
      Output.index o ∈ seen (KEY_INDEX K) os ∧
      _info w !! KEY_DEVICE_SERIAL K = Some (Output.webio_serial o).
Proof.
  intros (h & ls & Hr & ->)%update_outputs_inv. simpl.
  unfold reconcile_outputs in Hr.
  eapply (reconcile_delta Output.index output_unavailable
    (λ i s, Output.init i s None) (output_assign K) (KEY_INDEX K));
    [entity_law..| | |exact Hr]; done.
Qed.

Lemma update_zones_delta zs w new w' :
  _update_zones K zs w = (Ok new, w') →
  NoDup new ∧
  ∀ l, l ∈ new →
    (length (zone_store w) ≤ l)%nat ∧ l ∈ zones w' ∧
    ∃ z, zone_store w' !! l = Some z ∧
      Zone.index z ∈ seen (KEY_INDEX K) zs ∧
      _info w !! KEY_DEVICE_SERIAL K = Some (Zone.webio_serial z).
Proof.
  intros (h & ls & Hr & ->)%update_zones_inv. simpl.
  unfold reconcile_zones in Hr.
  eapply (reconcile_delta Zone.index zone_unavailable
    (λ i s, Zone.init i s None) (zone_assign K) (KEY_INDEX K));
    [entity_law..| | |exact Hr]; done.
Qed.

(** The retained indexes of one category. *)
Lemma update_outputs_retained_indexes os w new w' i :
  valid (output_store w) (outputs w) →
  _update_outputs K os w = (Ok new, w') →
  seen (KEY_INDEX K) os ≠ [] →
  i ∈ seen (KEY_INDEX K) os ↔
  ∃ l o, l ∈ outputs w' ∧ output_store w' !! l = Some o ∧ Output.index o = i.
Proof.
  intros Hv (h & ls & Hr & ->)%update_outputs_inv Hne. simpl.
  unfold reconcile_outputs in Hr.
  eapply (reconcile_retained_indexes Output.index output_unavailable
    (λ i s, Output.init i s None) (output_assign K) (KEY_INDEX K));
    [entity_law..|exact Hv|exact Hr|exact Hne].
Qed.

Lemma update_zones_retained_indexes zs w new w' i :
  valid (zone_store w) (zones w) →
  _update_zones K zs w = (Ok new, w') →
  seen (KEY_INDEX K) zs ≠ [] →
  i ∈ seen (KEY_INDEX K) zs ↔
  ∃ l z, l ∈ zones w' ∧ zone_store w' !! l = Some z ∧ Zone.index z = i.
Proof.
  intros Hv (h & ls & Hr & ->)%update_zones_inv Hne. simpl.
  unfold reconcile_zones in Hr.
  eapply (reconcile_retained_indexes Zone.index zone_unavailable
    (λ i s, Zone.init i s None) (zone_assign K) (KEY_INDEX K));
    [entity_law..|exact Hv|exact Hr|exact Hne].
Qed.

(** The first snapshot of one category. *)
Lemma update_outputs_first os w s :
  outputs w = [] →
  _info w !! KEY_DEVICE_SERIAL K = Some s →
  Forall (λ d, index_typed (KEY_INDEX K) d = true) os →
  NoDup (seen (KEY_INDEX K) os) →
  ∃ w', _update_outputs K os w = (Ok (outputs w'), w') ∧
        retained_outputs w' =
          made (λ i s, Output.init i s None) (output_assign K) (KEY_INDEX K)
            s os.
Proof.
  intros Hl Hs Ht Hnd. rewrite update_outputs_reconcile, Hl, Hs.
  unfold reconcile_outputs.
  edestruct (reconcile_first Output.index output_unavailable
    (λ i s, Output.init i s None) (output_assign K) (KEY_INDEX K))
    as (h1 & ls1 & -> & Hm); [entity_law..|exact Ht|exact Hnd|].
  simpl. exists (with_outputs ls1 h1 w). split; [done|]. exact Hm.
Qed.

Lemma update_zones_first zs w s :
  zones w = [] →
  _info w !! KEY_DEVICE_SERIAL K = Some s →
  Forall (λ d, index_typed (KEY_INDEX K) d = true) zs →
  NoDup (seen (KEY_INDEX K) zs) →
  ∃ w', _update_zones K zs w = (Ok (zones w'), w') ∧
        retained_zones w' =
          made (λ i s, Zone.init i s None) (zone_assign K) (KEY_INDEX K) s zs.
Proof.
  intros Hl Hs Ht Hnd. rewrite update_zones_reconcile, Hl, Hs.
  unfold reconcile_zones.
  edestruct (reconcile_first Zone.index zone_unavailable
    (λ i s, Zone.init i s None) (zone_assign K) (KEY_INDEX K))
    as (h1 & ls1 & -> & Hm); [entity_law..|exact Ht|exact Hnd|].
  simpl. exists (with_zones ls1 h1 w). split; [done|]. exact Hm.
Qed.

(** A category's reconciliation that raises. *)
Lemma forallb_false_elem {A : Type} (f : A → bool) (l : list A) (x : A) :
  x ∈ l → f x = false → forallb f l = false.
Proof.
  induction l as [|a l IH]; intros Hx Hf; [by apply elem_of_nil in Hx|].
  simpl. apply elem_of_cons in Hx as [<-|Hx].
  - by rewrite Hf.
  - rewrite IH by done. apply andb_false_r.
Qed.

Lemma update_outputs_raise os w e w' :
  _update_outputs K os w = (Raise e, w') →
  ((e = KeyError ∧ _info w !! KEY_DEVICE_SERIAL K = None) ∨
   (e = TypeError ∧ category_typed K (Some os) = false)) ∧
  outputs w `prefix_of` outputs w'.
Proof.
  intros (h & ls & Hr & ->)%update_outputs_inv. simpl.
  unfold reconcile_outputs in Hr.
  apply reconcile_Raise in Hr as [Hc [created ->]]; [|entity_law..].
  split; [|by eexists].
  destruct Hc as [?|[-> (d & Hd & Hu)]]; [by left|right].
  split; [done|]. by eapply forallb_false_elem.
Qed.

Lemma update_zones_raise zs w e w' :
  _update_zones K zs w = (Raise e, w') →
  ((e = KeyError ∧ _info w !! KEY_DEVICE_SERIAL K = None) ∨
   (e = TypeError ∧ category_typed K (Some zs) = false)) ∧
  zones w `prefix_of` zones w'.
Proof.
  intros (h & ls & Hr & ->)%update_zones_inv. simpl.
  unfold reconcile_zones in Hr.
  apply reconcile_Raise in Hr as [Hc [created ->]]; [|entity_law..].
  split; [|by eexists].
  destruct Hc as [?|[-> (d & Hd & Hu)]]; [by left|right].
  split; [done|]. by eapply forallb_false_elem.
Qed.

Lemma update_device_status_info new_status w :
  _info (snd (update_device_status K new_status w)) = _info w.
Proof.
  apply (update_device_status_preserves K (λ w', _info w' = _info w)).
  - intros os w0 r w' <- Hu. by apply update_outputs_frame in Hu as [? _].
  - intros zs w0 r w' <- Hu. by apply update_zones_frame in Hu as [? _].
  - done.
Qed.

Lemma update_device_status_raise new_status w e w' :
  update_device_status K new_status w = (Raise e, w') →
  ((e = KeyError ∧ _info w !! KEY_DEVICE_SERIAL K = None) ∨
   (e = TypeError ∧ snapshot_typed K new_status = false)) ∧
  zones w `prefix_of` zones w'.
Proof.
  intros Hu. apply update_device_status_inv in Hu as (r1 & w1 & H1 & H2).
  unfold snapshot_typed. destruct r1 as [no|e1].
  - destruct H2 as (r2 & H2 & Hr). destruct r2 as [nz|e2]; [done|].
    injection Hr as ->.
    assert (_info w1 = _info w ∧ zones w1 = zones w) as [Hi Hz].
    { destruct (new_status !! KEY_OUTPUTS K) as [os|].
      - by apply update_outputs_frame in H1 as (? & ? & _).
      - by injection H1 as <- <-. }
    destruct (new_status !! KEY_ZONES K) as [zs|]; [|done].
    apply update_zones_raise in H2 as [Hc Hp]. rewrite Hi in Hc.
    rewrite Hz in Hp. split; [|done].
    destruct Hc as [?|[-> Hc]]; [by left|right]. split; [done|].
    rewrite Hc. apply andb_false_r.
  - destruct H2 as [[= ->] ->].
    destruct (new_status !! KEY_OUTPUTS K) as [os|]; [|done].
    pose proof H1 as Hf. apply update_outputs_frame in Hf as (_ & -> & _).
    apply update_outputs_raise in H1 as [Hc _]. split; [|done].
    destruct Hc as [?|[-> Hc]]; [by left|right]. split; [done|].
    by rewrite Hc.
Qed.

(** ** Device info *)

Lemma remove_hyphens_free (s : string) : hyphen_free (remove_hyphens s) = true.
Proof.
  induction s as [|c s IH]; [done|]. simpl.
  destruct (Ascii.eqb c "-") eqn:Hc; [done|]. simpl. by rewrite Hc, IH.
Qed.

Lemma remove_hyphens_id (s : string) :
  hyphen_free s = true → remove_hyphens s = s.
Proof.
  induction s as [|c s IH]; [done|]. simpl.
  destruct (Ascii.eqb c "-"); [done|]. simpl. intros Hs. by rewrite IH.
Qed.

Lemma refresh_device_info_true a w :
  fst (refresh_device_info K a w) = Ok true ↔
  ∃ info s n, a = Mapping info ∧
              info !! KEY_WEBIO_SERIAL K = Some (VStr s) ∧
              info !! KEY_WEBIO_NAME K = Some n.
Proof.
  unfold refresh_device_info, refresh_try. destruct a as [info|v].
  2:{ split; [done|]. by intros (? & ? & ? & ? & _). }
  split.
  - destruct (info !! KEY_WEBIO_SERIAL K) as [[| | |s|]|] eqn:Hs; try done.
    destruct (info !! KEY_WEBIO_NAME K) as [n|] eqn:Hn; [|done].
    intros _. by exists info, s, n.
  - intros (? & s & n & [= <-] & -> & ->). done.
Qed.

Lemma refresh_device_info_stored info w s n :
  info !! KEY_WEBIO_SERIAL K = Some (VStr s) →
  info !! KEY_WEBIO_NAME K = Some n →
  _info (snd (refresh_device_info K (Mapping info) w)) =
    <[KEY_DEVICE_NAME K := n]>
      (<[KEY_DEVICE_SERIAL K := VStr (remove_hyphens s)]> (_info w)).
Proof.
  intros Hs Hn. unfold refresh_device_info, refresh_try. by rewrite Hs, Hn.
Qed.

Lemma refresh_device_info_twice a w :
  refresh_device_info K a (snd (refresh_device_info K a w)) =
  refresh_device_info K a w.
Proof.
  unfold refresh_device_info, refresh_try. destruct a as [info|v]; [|done].
  destruct (info !! KEY_WEBIO_SERIAL K) as [[| | |s|]|]; try done.
  destruct (info !! KEY_WEBIO_NAME K) as [n|]; simpl.
  - f_equal. unfold with_info. simpl. f_equal. apply map_eq. intros k.
    destruct (decide (KEY_DEVICE_NAME K = k)) as [<-|Hn].
    { by rewrite !lookup_insert_eq. }
    rewrite !(lookup_insert_ne _ (KEY_DEVICE_NAME K)) by done.
    destruct (decide (KEY_DEVICE_SERIAL K = k)) as [<-|Hs].
    { by rewrite !lookup_insert_eq. }
    by rewrite !lookup_insert_ne by done.
  - f_equal. unfold with_info. simpl. f_equal. apply insert_insert_eq.
Qed.

Lemma refresh_device_info_false_name a w :
  fst (refresh_device_info K a w) = Ok false →
  KEY_DEVICE_SERIAL K ≠ KEY_DEVICE_NAME K →
  _info (snd (refresh_device_info K a w)) !! KEY_DEVICE_NAME K =
    _info w !! KEY_DEVICE_NAME K.
Proof.
  unfold refresh_device_info, refresh_try. destruct a as [info|v]; [|done].
  destruct (info !! KEY_WEBIO_SERIAL K) as [[| | |s|]|]; try done.
  destruct (info !! KEY_WEBIO_NAME K) as [n|]; simpl; [done|].
  intros _ Hne. by rewrite lookup_insert_ne.
Qed.

(** ** Runs of calls *)

Lemma kept_refl w : kept w w.
Proof. split; eauto. Qed.

Lemma do_call_kept c w : kept w (do_call K c w).
Proof.
  destruct c as [info|new_status]; simpl.
  - destruct (refresh_device_info_frame K info w) as (_ & _ & Ho & Hz).
    unfold kept. rewrite Ho, Hz. apply kept_refl.
  - apply update_device_status_kept.
Qed.

Lemma run_kept cs w : kept w (run K cs w).
Proof.
  revert w. induction cs as [|c cs IH]; intros w; [apply kept_refl|].
  unfold run in *. simpl. eapply kept_trans; [apply do_call_kept|apply IH].
Qed.

(** A returning [update_device_status], category by category. *)
Lemma update_device_status_Ok new_status w no nz w' :
  update_device_status K new_status w = (Ok (no, nz), w') →
  match new_status !! KEY_OUTPUTS K with
  | None =>
      no = [] ∧ outputs w' = outputs w ∧ output_store w' = output_store w
  | Some os =>
      ∃ w1, _update_outputs K os w = (Ok no, w1) ∧
            outputs w' = outputs w1 ∧ output_store w' = output_store w1
  end ∧
  match new_status !! KEY_ZONES K with
  | None => nz = [] ∧ zones w' = zones w ∧ zone_store w' = zone_store w
  | Some zs =>
      ∃ w1, _update_zones K zs w1 = (Ok nz, w') ∧ _info w1 = _info w ∧
            zones w1 = zones w ∧ zone_store w1 = zone_store w
  end.
Proof.
  intros Hu. apply update_device_status_inv in Hu as (r1 & w1 & H1 & H2).
  destruct r1 as [no'|e]; [|by destruct H2].
  destruct H2 as (r2 & H2 & Hr). destruct r2 as [nz'|e]; [|done].
  injection Hr as -> ->.
  assert (_info w1 = _info w ∧ zones w1 = zones w ∧
          zone_store w1 = zone_store w) as (Hi & Hz & Hzs).
  { destruct (new_status !! KEY_OUTPUTS K) as [os|].
    - by apply update_outputs_frame in H1.
    - by injection H1 as _ <-. }
  assert (outputs w' = outputs w1 ∧ output_store w' = output_store w1)
    as (Ho & Hos).
  { destruct (new_status !! KEY_ZONES K) as [zs|].
    - by apply update_zones_frame in H2 as (_ & ? & ?).
    - by injection H2 as _ <-. }
  split.
  - destruct (new_status !! KEY_OUTPUTS K) as [os|]; [by eauto|].
    injection H1 as <- <-. done.
  - destruct (new_status !! KEY_ZONES K) as [zs|]; [by eauto 10|].
    injection H2 as <- <-. done.
Qed.

(** Entities the snapshot does not name. *)
Lemma update_outputs_unseen os w new w' l o :
  _update_outputs K os w = (Ok new, w') →
  output_store w !! l = Some o →
  Output.index o ∉ seen (KEY_INDEX K) os →
  output_store w' !! l =
    Some (if decide (l ∈ outputs w) then output_unavailable o else o).
Proof.
  intros (h & ls & Hr & ->)%update_outputs_inv Ho Hi. simpl.
  unfold reconcile_outputs in Hr.
  eapply (reconcile_unseen Output.index output_unavailable
    (λ i s, Output.init i s None) (output_assign K) (KEY_INDEX K));
    [entity_law..|exact Hr|exact Ho|exact Hi].
Qed.

Lemma update_zones_unseen zs w new w' l z :
  _update_zones K zs w = (Ok new, w') →
  zone_store w !! l = Some z →
  Zone.index z ∉ seen (KEY_INDEX K) zs →
  zone_store w' !! l =
    Some (if decide (l ∈ zones w) then zone_unavailable z else z).
Proof.
  intros (h & ls & Hr & ->)%update_zones_inv Hz Hi. simpl.
  unfold reconcile_zones in Hr.
  eapply (reconcile_unseen Zone.index zone_unavailable
    (λ i s, Zone.init i s None) (zone_assign K) (KEY_INDEX K));
    [entity_law..|exact Hr|exact Hz|exact Hi].
Qed.

(** The lookups of the facade. *)
Lemma get_output_is_Some w i :
  is_Some (_get_output w i) ↔ i ∈ Output.index <$> retained_outputs w.
Proof.
  unfold retained_outputs. rewrite elem_of_retained.
  apply (lookup_index_is_Some Output.index).
Qed.

Lemma get_zone_is_Some w i :
  is_Some (_get_zone w i) ↔ i ∈ Zone.index <$> retained_zones w.
Proof.
  unfold retained_zones. rewrite elem_of_retained.
  apply (lookup_index_is_Some Zone.index).
Qed.

(** ** The stored serials *)

Lemma refresh_device_info_serials info w :
  KEY_DEVICE_SERIAL K ≠ KEY_DEVICE_NAME K →
  serials_ok K w → serials_ok K (snd (refresh_device_info K info w)).
Proof.
  intros Hne (Hi & Ho & Hz). unfold serials_ok.
  destruct (refresh_device_info_frame K info w) as (_ & _ & -> & ->).
  split; [|done]. unfold refresh_device_info, refresh_try.
  destruct info as [info|v]; [|done].
  destruct (info !! KEY_WEBIO_SERIAL K) as [[| | |s|]|]; try done.
  destruct (info !! KEY_WEBIO_NAME K) as [n|]; simpl; intros v.
  - rewrite lookup_insert_ne by done. rewrite lookup_insert_eq.
    intros [= <-]. apply remove_hyphens_free.
  - rewrite lookup_insert_eq. intros [= <-]. apply remove_hyphens_free.
Qed.

Lemma update_device_status_serials new_status w :
  serials_ok K w → serials_ok K (snd (update_device_status K new_status w)).
Proof.
  apply update_device_status_preserves.
  - intros os w0 r w' (Hi & Ho & Hz) (h & ls & Hr & ->)%update_outputs_inv.
    split_and!; [done| |done]. simpl. unfold reconcile_outputs in Hr.
    eapply (reconcile_Forall_serial Output.index output_unavailable
      (λ i s, Output.init i s None) (output_assign K) (KEY_INDEX K));
      [| | |exact Ho|exact Hr]; [done|done|].
    intros i s Hs. by apply Hi.
  - intros zs w0 r w' (Hi & Ho & Hz) (h & ls & Hr & ->)%update_zones_inv.
    split_and!; [done|done|]. simpl. unfold reconcile_zones in Hr.
    eapply (reconcile_Forall_serial Zone.index zone_unavailable
      (λ i s, Zone.init i s None) (zone_assign K) (KEY_INDEX K));
      [| | |exact Hz|exact Hr]; [done|done|].
    intros i s Hs. by apply Hi.
Qed.

Lemma run_serials cs w :
  KEY_DEVICE_SERIAL K ≠ KEY_DEVICE_NAME K →
  serials_ok K w → serials_ok K (run K cs w).
Proof.
  intros Hne. revert w. induction cs as [|c cs IH]; intros w Hw; [done|].
  unfold run in *. simpl. apply IH. destruct c as [info|new_status]; simpl.
  - by apply refresh_device_info_serials.
  - by apply update_device_status_serials.
Qed.
End FacadeMore.

(** * Further properties of the facade *)

(** ** Entities a caller holds *)









(** ** What a raising call leaves *)



(** ** Entities the snapshot does not name *)



(** ** Device info *)








